(** * cache2go: the per-table caching engine, embedded in Rocq

    A shallow embedding of [CacheTable] (the item store, the self-adjusting
    expiration check, the callback queues, the data loader and the access
    ranking) together with the properties the specification states about it.

    Modelling conventions.
    - A [*CacheItem] is a location [loc] into a heap of items; the table's
      [items] map holds locations, so that the identity of an item (the stored
      one, the one a loader returns) can be told apart from its contents.
    - [time.Time] is an instant in nanoseconds, [time.Duration] a signed 64-bit
      count of nanoseconds: [Time.Sub] saturates and [Duration] subtraction
      wraps around, as in Go.
    - [time.Now()] reads the [clock] of the world.  Time passes between table
      operations ([Tick]) and inside an [Add]: [NewCacheItem] reads the clock
      when it creates the item, and the expiration check the insertion may
      trigger reads it again, after the added-item callbacks have run.  The
      time that passes between the two readings is an argument of [Add],
      [NotFoundAdd] and [Value] (which adds what the loader returns).  No
      other function reads the clock twice; the time that passes before or
      after a reading is a [Tick] before or after the operation.
    - A callback is identified by a tag; calling it is recorded as an [Event]
      in the [trace] of the world, in call order.  Callbacks are observers:
      they do not change the table, but the table is unlocked while they run
      and they can look into it, so that an event also records whether the
      item the call is about is in the item map at the time of the call.  A
      data loader is a function on the heap of items: it may allocate items
      and return one, and does not re-enter the table.
    - The table is used sequentially: locks are no-ops and are left out, and
      so is the diagnostic logger.
    - The order in which Go's [range] visits a map is not fixed: it is the
      section variable [range_map], any enumeration of the map's entries.
      [sort.Sort] is the section variable [sort_Sort], any function that
      returns a permutation of its argument ordered by [Less]. *)

From Stdlib Require Import ZArith Lia Permutation Sorted.
From stdpp Require Import gmap strings list fin_maps sorting.

Local Open Scope Z_scope.

(** ** Time *)

(** Instants and durations are integers (nanoseconds). *)
Abbreviation time_Time := Z (only parsing).
Abbreviation time_Duration := Z (only parsing).

Definition minDuration : time_Duration := - 2 ^ 63.
Definition maxDuration : time_Duration := 2 ^ 63 - 1.

Definition int64 (z : Z) : Prop := minDuration <= z <= maxDuration.

(** Signed 64-bit wrap-around. *)
Definition wrap64 (z : Z) : Z := (z + 2 ^ 63) mod 2 ^ 64 - 2 ^ 63.

(** [t.Sub(u)]: the duration [t - u], saturated at the largest and smallest
    [Duration]. *)
Definition Sub (t u : time_Time) : time_Duration :=
  if maxDuration <? t - u then maxDuration
  else if t - u <? minDuration then minDuration
  else t - u.

(** [a - b] on [time.Duration]. *)
Definition dur_sub (a b : time_Duration) : time_Duration := wrap64 (a - b).

(** ** Errors *)

(** Modelled from the spec: the error values [ErrKeyNotFound] and
    [ErrKeyNotFoundOrLoadable] are declared in a file that is not part of the
    sources at hand; section 7 of the specification lists the two. *)
Inductive error : Set :=
| ErrKeyNotFound
| ErrKeyNotFoundOrLoadable.

(** ** Items, callbacks and the heap *)

Definition loc := nat.

(** The tag of a registered callback function. *)
Definition Callback := nat.

Section Cache.

Context {K : Type} `{Countable K} {D A : Type}.

(** Modelled from the spec: the struct [CacheItem] is declared in a file that
    is not part of the sources at hand; these are the fields section 3 of the
    specification gives it (the table code reads [key], [data], [lifeSpan],
    [accessedOn], [createdOn], [accessCount] and [aboutToExpire]). *)
Record CacheItem := mkCacheItem {
  key : K;
  data : D;
  lifeSpan : time_Duration;
  createdOn : time_Time;
  accessedOn : time_Time;
  accessCount : Z;
  aboutToExpire : list Callback
}.

Record Heap := mkHeap {
  cell : loc -> CacheItem;
  next : loc
}.

Definition alloc (it : CacheItem) (h : Heap) : Heap * loc :=
  (mkHeap (fun p => if Nat.eqb p (next h) then it else cell h p) (S (next h)),
   next h).

Definition store (p : loc) (it : CacheItem) (h : Heap) : Heap :=
  mkHeap (fun q => if Nat.eqb q p then it else cell h q) (next h).

(** What a call of a callback looks like from outside: which callback is
    called, on which item or key, and whether the item map holds the item
    under its key while the callback runs ([stored]). *)
Inductive Event :=
| CallAddedItem (f : Callback) (item : loc) (stored : bool)
| CallAboutToDeleteItem (f : Callback) (item : loc) (stored : bool)
| CallAboutToExpire (f : Callback) (k : K) (stored : bool).

(** ** The table *)

(** A [*time.Timer] made by [time.AfterFunc]: the instant it fires at and
    whether it is still waiting to fire. *)
Record time_Timer := mkTimer {
  deadline : time_Time;
  pending : bool
}.

Definition AfterFunc (now : time_Time) (d : time_Duration) : time_Timer :=
  mkTimer (now + d) true.

Definition Stop (tm : time_Timer) : time_Timer := mkTimer (deadline tm) false.

(** A data loader: given the key, the extra arguments, the current instant
    and the heap, it may allocate or pick an item and return it, or return
    nothing ([nil]). *)
Definition Loader := K -> list A -> time_Time -> Heap -> Heap * option loc.

Record CacheTable := mkCacheTable {
  name : string;
  items : gmap K loc;
  cleanupTimer : option time_Timer;
  cleanupInterval : time_Duration;
  loadData : option Loader;
  addedItem : list Callback;
  aboutToDeleteItem : list Callback
}.

Record World := mkWorld {
  heap : Heap;
  table : CacheTable;
  clock : time_Time;
  trace : list Event
}.

Definition set_items (m : gmap K loc) (t : CacheTable) : CacheTable :=
  mkCacheTable (name t) m (cleanupTimer t) (cleanupInterval t) (loadData t)
    (addedItem t) (aboutToDeleteItem t).

Definition set_cleanupTimer (tm : option time_Timer) (t : CacheTable) : CacheTable :=
  mkCacheTable (name t) (items t) tm (cleanupInterval t) (loadData t)
    (addedItem t) (aboutToDeleteItem t).

Definition set_cleanupInterval (d : time_Duration) (t : CacheTable) : CacheTable :=
  mkCacheTable (name t) (items t) (cleanupTimer t) d (loadData t)
    (addedItem t) (aboutToDeleteItem t).

Definition set_loadData (f : option Loader) (t : CacheTable) : CacheTable :=
  mkCacheTable (name t) (items t) (cleanupTimer t) (cleanupInterval t) f
    (addedItem t) (aboutToDeleteItem t).

Definition set_addedItem (l : list Callback) (t : CacheTable) : CacheTable :=
  mkCacheTable (name t) (items t) (cleanupTimer t) (cleanupInterval t) (loadData t)
    l (aboutToDeleteItem t).

Definition set_aboutToDeleteItem (l : list Callback) (t : CacheTable) : CacheTable :=
  mkCacheTable (name t) (items t) (cleanupTimer t) (cleanupInterval t) (loadData t)
    (addedItem t) l.

Definition with_table (f : CacheTable -> CacheTable) (w : World) : World :=
  mkWorld (heap w) (f (table w)) (clock w) (trace w).

Definition with_heap (f : Heap -> Heap) (w : World) : World :=
  mkWorld (f (heap w)) (table w) (clock w) (trace w).

Definition emit (evs : list Event) (w : World) : World :=
  mkWorld (heap w) (table w) (clock w) (trace w ++ evs).

(** The item a pointer refers to. *)
Definition deref (w : World) (p : loc) : CacheItem := cell (heap w) p.

(** What a callback sees when it looks its item up: is [item] the item the
    map holds under [k]? *)
Definition holds (w : World) (k : K) (item : loc) : bool :=
  let found : option loc := items (table w) !! k in
  match found with
  | Some q => Nat.eqb q item
  | None => false
  end.

(** Time passes. *)
Definition Tick (d : time_Duration) (w : World) : World :=
  mkWorld (heap w) (table w) (clock w + d) (trace w).

(** A table as the registry hands it out: no item, no timer, no callback. *)
Definition newTable (nm : string) : CacheTable :=
  mkCacheTable nm ∅ None 0 None [] [].

(** ** Item operations *)

(** Modelled from the spec: [NewCacheItem] is defined in a file that is not
    part of the sources at hand.  Section 4.1: "Create(key, lifespan, data):
    new item with createdOn = accessedOn = now, accessCount = 0".  [newItem]
    is the item it makes at the instant [now]; it has no callback yet. *)
Definition newItem (k : K) (ls : time_Duration) (d : D) (now : time_Time) : CacheItem :=
  mkCacheItem k d ls now now 0 [].

Definition NewCacheItem (k : K) (ls : time_Duration) (d : D) (w : World) : World * loc :=
  let '(h, p) := alloc (newItem k ls d (clock w)) (heap w) in
  (mkWorld h (table w) (clock w) (trace w), p).

(** Modelled from the spec: [KeepAlive] is defined in a file that is not part
    of the sources at hand.  Section 4.1: "KeepAlive(): sets accessedOn = now,
    increments accessCount". *)
Definition KeepAlive (p : loc) (w : World) : World :=
  let it := deref w p in
  with_heap (store p (mkCacheItem (key it) (data it) (lifeSpan it) (createdOn it)
                        (clock w) (accessCount it + 1) (aboutToExpire it))) w.

(** Modelled from the spec: the item's callback setters are defined in a file
    that is not part of the sources at hand.  Section 4.1: Set replaces the
    list by the single callback, Add appends. *)
Definition set_aboutToExpire (l : list Callback) (it : CacheItem) : CacheItem :=
  mkCacheItem (key it) (data it) (lifeSpan it) (createdOn it) (accessedOn it)
    (accessCount it) l.

Definition SetAboutToExpireCallback (p : loc) (f : Callback) (w : World) : World :=
  with_heap (store p (set_aboutToExpire [f] (deref w p))) w.

Definition AddAboutToExpireCallback (p : loc) (f : Callback) (w : World) : World :=
  with_heap (store p (set_aboutToExpire (aboutToExpire (deref w p) ++ [f]) (deref w p))) w.

(** ** Table operations *)

(** Go's [range] over a map and [sort.Sort]: see the conventions above. *)
Variable range_map : gmap K loc -> list (K * loc).
Hypothesis range_map_perm : forall m, range_map m ≡ₚ map_to_list m.

(** What a function returning an item pointer and an [error] returns. *)
Inductive result :=
| Ok (r : loc)
| Err (e : error).

Definition Count (w : World) : Z := Z.of_nat (size (items (table w))).

Definition SetDataLoader (f : Loader) (w : World) : World :=
  with_table (set_loadData (Some f)) w.

Definition RemoveAddedItemCallbacks (w : World) : World :=
  with_table (set_addedItem []) w.

Definition SetAddedItemCallback (f : Callback) (w : World) : World :=
  let w := if (0 <? length (addedItem (table w)))%nat
           then RemoveAddedItemCallbacks w else w in
  with_table (fun t => set_addedItem (addedItem t ++ [f]) t) w.

Definition AddAddedItemCallback (f : Callback) (w : World) : World :=
  with_table (fun t => set_addedItem (addedItem t ++ [f]) t) w.

Definition RemoveAboutToDeleteItemCallback (w : World) : World :=
  with_table (set_aboutToDeleteItem []) w.

Definition SetAboutToDeleteItemCallback (f : Callback) (w : World) : World :=
  let w := if (0 <? length (aboutToDeleteItem (table w)))%nat
           then RemoveAboutToDeleteItemCallback w else w in
  with_table (fun t => set_aboutToDeleteItem (aboutToDeleteItem t ++ [f]) t) w.

Definition AddAboutToDeleteItemCallback (f : Callback) (w : World) : World :=
  with_table (fun t => set_aboutToDeleteItem (aboutToDeleteItem t ++ [f]) t) w.

(** The two callback loops of [deleteInternal]: first the table's queue on
    the item, then the item's own queue on the key.  Each call is recorded
    with what the map holds under the key at that point. *)
Definition deleteCallbacks (k : K) (r : loc) (w : World) : World :=
  let w := emit (map (fun f => CallAboutToDeleteItem f r (holds w k r))
                     (aboutToDeleteItem (table w))) w in
  emit (map (fun f => CallAboutToExpire f k (holds w k r)) (aboutToExpire (deref w r))) w.

Definition deleteInternal (k : K) (w : World) : World * result :=
  match items (table w) !! k with
  | None => (w, Err ErrKeyNotFound)
  | Some r =>
      let w := deleteCallbacks k r w in
      (with_table (fun t => set_items (delete k (items t)) t) w, Ok r)
  end.

Definition Delete (k : K) (w : World) : World * result := deleteInternal k w.

(** One iteration of the loop of [expirationCheck]. *)
Definition sweepItem (now : time_Time) (acc : World * time_Duration) (kv : K * loc)
  : World * time_Duration :=
  let '(w, smallestDuration) := acc in
  let '(k, item) := kv in
  let ls := lifeSpan (deref w item) in
  let acc_on := accessedOn (deref w item) in
  if ls =? 0 then (w, smallestDuration)
  else if Sub now acc_on >=? ls then (fst (deleteInternal k w), smallestDuration)
  else if (smallestDuration =? 0) || (dur_sub ls (Sub now acc_on) <? smallestDuration)
       then (w, dur_sub ls (Sub now acc_on))
       else (w, smallestDuration).

Definition expirationCheck (w : World) : World :=
  let w := with_table (fun t => set_cleanupTimer (Stop <$> cleanupTimer t) t) w in
  let now := clock w in
  let '(w, smallestDuration) :=
    fold_left (sweepItem now) (range_map (items (table w))) (w, 0) in
  let w := with_table (set_cleanupInterval smallestDuration) w in
  if 0 <? smallestDuration
  then with_table (set_cleanupTimer (Some (AfterFunc now smallestDuration))) w
  else w.

(** [addInternal], called on an item [NewCacheItem] has just made.  [dt] is
    the time that passes from the creation of the item (the reading of the
    clock in [NewCacheItem]) to the end of the added-item callbacks, where
    the expiration check, if there is one, reads the clock again. *)
Definition addInternal (item : loc) (dt : time_Duration) (w : World) : World :=
  let it := deref w item in
  let w := with_table (fun t => set_items (<[key it := item]> (items t)) t) w in
  let expDur := cleanupInterval (table w) in
  let w := emit (map (fun f => CallAddedItem f item (holds w (key it) item))
                     (addedItem (table w))) w in
  let w := Tick dt w in
  if (0 <? lifeSpan it) && ((expDur =? 0) || (lifeSpan it <? expDur))
  then expirationCheck w
  else w.

Definition Add (k : K) (ls : time_Duration) (d : D) (dt : time_Duration) (w : World)
  : World * loc :=
  let '(w, item) := NewCacheItem k ls d w in
  (addInternal item dt w, item).

Definition Exists (k : K) (w : World) : bool :=
  bool_decide (is_Some (items (table w) !! k)).

Definition NotFoundAdd (k : K) (ls : time_Duration) (d : D) (dt : time_Duration) (w : World)
  : World * bool :=
  match items (table w) !! k with
  | Some _ => (w, false)
  | None =>
      let '(w, item) := NewCacheItem k ls d w in
      (addInternal item dt w, true)
  end.

(** [dt] is the time taken by the [Add] of the loader branch. *)
Definition Value (k : K) (args : list A) (dt : time_Duration) (w : World) : World * result :=
  match items (table w) !! k with
  | Some r => (KeepAlive r w, Ok r)
  | None =>
      match loadData (table w) with
      | Some load =>
          let '(h, loaded) := load k args (clock w) (heap w) in
          let w := with_heap (fun _ => h) w in
          match loaded with
          | Some item =>
              let ls := lifeSpan (deref w item) in
              let d := data (deref w item) in
              (fst (Add k ls d dt w), Ok item)
          | None => (w, Err ErrKeyNotFoundOrLoadable)
          end
      | None => (w, Err ErrKeyNotFound)
      end
  end.

Definition Flush (w : World) : World :=
  with_table (fun t =>
    set_cleanupTimer (Stop <$> cleanupTimer t) (set_cleanupInterval 0 (set_items ∅ t))) w.

(** ** Access ranking *)

Record CacheItemPair := mkCacheItemPair {
  Key : K;
  AccessCount : Z
}.

(** [CacheItemPairList.Less], on two elements. *)
Definition Less (a b : CacheItemPair) : bool := AccessCount a >? AccessCount b.

Variable sort_Sort : list CacheItemPair -> list CacheItemPair.
Hypothesis sort_Sort_perm : forall p, sort_Sort p ≡ₚ p.
Hypothesis sort_Sort_sorted :
  forall p, StronglySorted (fun a b => Less b a = false) (sort_Sort p).

(** The second loop of [MostAccessed]: [c] counts the pairs seen. *)
Fixpoint collect (m : gmap K loc) (count c : Z) (p : list CacheItemPair) (r : list loc)
  : list loc :=
  match p with
  | [] => r
  | v :: p' =>
      if c >=? count then r
      else
        let r := match m !! Key v with
                 | Some item => r ++ [item]
                 | None => r
                 end in
        collect m count (c + 1) p' r
  end.

Definition MostAccessed (count : Z) (w : World) : list loc :=
  let p := map (fun kv => mkCacheItemPair (fst kv) (accessCount (deref w (snd kv))))
               (range_map (items (table w))) in
  let p := sort_Sort p in
  collect (items (table w)) count 0 p [].

(** ** The timer and the passage of time *)

(** The timer fires: the function given to [AfterFunc] runs
    [expirationCheck]. *)
Definition timerFires (w : World) : World :=
  match cleanupTimer (table w) with
  | Some tm =>
      if pending tm && (deadline tm <=? clock w)
      then expirationCheck (with_table (set_cleanupTimer (Some (Stop tm))) w)
      else w
  | None => w
  end.

(** ** Runs of the table *)

(** What a client, the timer and the clock can do to the world.  The
    observers [Count], [Exists] and [MostAccessed] change nothing and are not
    listed.  The last three act on an item through a pointer the client got
    from [Add] or [Value].  [dt] is the time an [Add] takes, see
    [addInternal]. *)
Inductive Op :=
| OpAdd (k : K) (ls : time_Duration) (d : D) (dt : time_Duration)
| OpNotFoundAdd (k : K) (ls : time_Duration) (d : D) (dt : time_Duration)
| OpDelete (k : K)
| OpValue (k : K) (args : list A) (dt : time_Duration)
| OpFlush
| OpSetDataLoader (f : Loader)
| OpSetAddedItemCallback (f : Callback)
| OpAddAddedItemCallback (f : Callback)
| OpRemoveAddedItemCallbacks
| OpSetAboutToDeleteItemCallback (f : Callback)
| OpAddAboutToDeleteItemCallback (f : Callback)
| OpRemoveAboutToDeleteItemCallback
| OpTimerFires
| OpTick (d : time_Duration)
| OpKeepAlive (p : loc)
| OpSetAboutToExpireCallback (p : loc) (f : Callback)
| OpAddAboutToExpireCallback (p : loc) (f : Callback).

Definition step (op : Op) (w : World) : World :=
  match op with
  | OpAdd k ls d dt => fst (Add k ls d dt w)
  | OpNotFoundAdd k ls d dt => fst (NotFoundAdd k ls d dt w)
  | OpDelete k => fst (Delete k w)
  | OpValue k args dt => fst (Value k args dt w)
  | OpFlush => Flush w
  | OpSetDataLoader f => SetDataLoader f w
  | OpSetAddedItemCallback f => SetAddedItemCallback f w
  | OpAddAddedItemCallback f => AddAddedItemCallback f w
  | OpRemoveAddedItemCallbacks => RemoveAddedItemCallbacks w
  | OpSetAboutToDeleteItemCallback f => SetAboutToDeleteItemCallback f w
  | OpAddAboutToDeleteItemCallback f => AddAboutToDeleteItemCallback f w
  | OpRemoveAboutToDeleteItemCallback => RemoveAboutToDeleteItemCallback w
  | OpTimerFires => timerFires w
  | OpTick d => Tick d w
  | OpKeepAlive p => KeepAlive p w
  | OpSetAboutToExpireCallback p f => SetAboutToExpireCallback p f w
  | OpAddAboutToExpireCallback p f => AddAboutToExpireCallback p f w
  end.

Definition run (ops : list Op) (w : World) : World := fold_left (fun w op => step op w) ops w.

(** A loader is well behaved when it treats the items that exist as a client
    may (it can allocate items, and read, keep alive or put callbacks on the
    others: their lifespan stays and their last access does not move back, nor
    beyond the current instant) and returns a pointer to an item that exists,
    with a lifespan that is a [Duration]. *)
Definition loader_ok (f : Loader) : Prop :=
  forall k args now h,
    (next h <= next (fst (f k args now h)))%nat /\
    (forall p, (p < next h)%nat ->
       lifeSpan (cell (fst (f k args now h)) p) = lifeSpan (cell h p) /\
       accessedOn (cell h p) <= accessedOn (cell (fst (f k args now h)) p) /\
       (accessedOn (cell h p) <= now ->
        accessedOn (cell (fst (f k args now h)) p) <= now)) /\
    (forall p, snd (f k args now h) = Some p ->
       (p < next (fst (f k args now h)))%nat /\
       int64 (lifeSpan (cell (fst (f k args now h)) p))).

(** The arguments an operation can have: lifespans are [Duration]s, time
    does not run backwards, loaders are well behaved. *)
Definition op_ok (op : Op) : Prop :=
  match op with
  | OpAdd _ ls _ dt | OpNotFoundAdd _ ls _ dt => int64 ls /\ 0 <= dt
  | OpValue _ _ dt => 0 <= dt
  | OpSetDataLoader f => loader_ok f
  | OpTick d => 0 <= d
  | _ => True
  end.

(** ** Notions the specification uses *)

(** The item has outlived its lifespan at [now], as the sweep decides it. *)
Definition expired (now : time_Time) (it : CacheItem) : bool :=
  negb (lifeSpan it =? 0) && (Sub now (accessedOn it) >=? lifeSpan it).

(** Lifespan minus elapsed inactivity. *)
Definition remaining (now : time_Time) (it : CacheItem) : Z :=
  lifeSpan it - (now - accessedOn it).

(** An item the sweep keeps and whose lifespan is not zero. *)
Definition live (now : time_Time) (it : CacheItem) : Prop :=
  lifeSpan it <> 0 /\ expired now it = false.

(** The item map is well formed for the sweep at the current instant: every
    stored item was last accessed in the past and has a lifespan that is a
    [Duration]. *)
Definition items_ok (w : World) : Prop :=
  forall k p, items (table w) !! k = Some p ->
    accessedOn (deref w p) <= clock w /\ int64 (lifeSpan (deref w p)).

(** The pairs [MostAccessed] sorts. *)
Definition pairs (w : World) : list CacheItemPair :=
  map (fun kv => mkCacheItemPair (fst kv) (accessCount (deref w (snd kv))))
      (range_map (items (table w))).

(** The calls [deleteInternal] makes for the item [r] stored under [k]: each
    callback of the table's queue on the item, then each callback of the
    item's queue on the key, all of them while the map still holds [r] under
    [k]. *)
Definition deleteEvents (w : World) (k : K) (r : loc) : list Event :=
  map (fun f => CallAboutToDeleteItem f r true) (aboutToDeleteItem (table w)) ++
  map (fun f => CallAboutToExpire f k true) (aboutToExpire (deref w r)).

(** The loop of [expirationCheck] on its own: what it does to the item map,
    which calls it makes and which duration it ends with.  The loop changes
    nothing else in the world ([sweep_fold] below). *)
Definition sweepPure (now : time_Time) (w0 : World)
    (s : gmap K loc * list Event * time_Duration) (kv : K * loc)
  : gmap K loc * list Event * time_Duration :=
  let it := deref w0 (snd kv) in
  if lifeSpan it =? 0 then s
  else if Sub now (accessedOn it) >=? lifeSpan it then
    match s.1.1 !! fst kv with
    | None => s
    | Some r => (delete (fst kv) s.1.1, s.1.2 ++ deleteEvents w0 (fst kv) r, s.2)
    end
  else if (s.2 =? 0) || (dur_sub (lifeSpan it) (Sub now (accessedOn it)) <? s.2)
       then (s.1.1, s.1.2, dur_sub (lifeSpan it) (Sub now (accessedOn it)))
       else s.

Definition inject (w0 : World) (s : gmap K loc * list Event * time_Duration)
  : World * time_Duration :=
  (mkWorld (heap w0) (set_items s.1.1 (table w0)) (clock w0) (trace w0 ++ s.1.2), s.2).

(** The world in [addInternal] once the new item is in the map and the
    added-item callbacks have run on it, seeing it there; the expiration
    check is still to be considered. *)
Definition inserted (k : K) (ls : time_Duration) (d : D) (w : World) : World :=
  mkWorld (fst (alloc (newItem k ls d (clock w)) (heap w)))
          (set_items (<[k := next (heap w)]> (items (table w))) (table w))
          (clock w)
          (trace w ++ map (fun f => CallAddedItem f (next (heap w)) true)
                          (addedItem (table w))).

(** The test of [addInternal]: does the new item call for a check now? *)
Definition moreImminent (ls expDur : time_Duration) : bool :=
  (0 <? ls) && ((expDur =? 0) || (ls <? expDur)).

(** The new item falls to the check its own insertion triggers: a check
    runs, and it reads the clock when the lifespan has already passed. *)
Definition expiresAtOnce (ls dt expDur : time_Duration) : bool :=
  moreImminent ls expDur && (ls <=? dt).

(** ** The invariant of the table *)

(** Every stored pointer refers to an item that exists, was last accessed in
    the past and has a lifespan that is a [Duration]. *)
Definition stored_ok (w : World) : Prop :=
  forall k p, items (table w) !! k = Some p ->
    (p < next (heap w))%nat /\
    accessedOn (deref w p) <= clock w /\
    int64 (lifeSpan (deref w p)).

Definition loaders_ok (w : World) : Prop :=
  forall f, loadData (table w) = Some f -> loader_ok f.

(** The state of the scheduler.  When the interval is positive, a timer is
    pending; it was armed for the interval at an instant in the past
    ([deadline - cleanupInterval]) and it fires no later than any stored item
    with a positive lifespan expires.  When the interval is 0, no timer is
    pending and no stored item has a positive lifespan. *)
Definition timer_ok (w : World) : Prop :=
  0 <= cleanupInterval (table w) /\
  (0 < cleanupInterval (table w) ->
     exists tm, cleanupTimer (table w) = Some tm /\ pending tm = true /\
       deadline tm - cleanupInterval (table w) <= clock w /\
       forall k p, items (table w) !! k = Some p -> 0 < lifeSpan (deref w p) ->
         deadline tm <= accessedOn (deref w p) + lifeSpan (deref w p)) /\
  (cleanupInterval (table w) = 0 ->
     (forall tm, cleanupTimer (table w) = Some tm -> pending tm = false) /\
     forall k p, items (table w) !! k = Some p -> lifeSpan (deref w p) <= 0).

Definition Inv (w : World) : Prop := stored_ok w /\ loaders_ok w /\ timer_ok w.



(** ** The rest of the table's interface *)

(** [Foreach]: the visitor is a Go closure; what it does to the variables it
    captured is a function on their state [T].  It is called on every entry,
    in the order [range] gives them. *)
Definition Foreach {T : Type} (trans : K -> loc -> T -> T) (w : World) (s : T) : T :=
  fold_left (fun s kv => trans (fst kv) (snd kv) s) (range_map (items (table w))) s.

(** The visitor that notes down what it is called on. *)
Definition noteVisit (k : K) (item : loc) (seen : list (K * loc)) : list (K * loc) :=
  seen ++ [(k, item)].

(** [CacheItemPairList] as [sort.Interface]: indices out of range make Go
    panic, which is [None] here. *)
Definition Len (p : list CacheItemPair) : Z := Z.of_nat (length p).

Definition Swap (p : list CacheItemPair) (i j : nat) : option (list CacheItemPair) :=
  match p !! i, p !! j with
  | Some a, Some b => Some (<[j := a]> (<[i := b]> p))
  | _, _ => None
  end.

Definition LessAt (p : list CacheItemPair) (i j : nat) : option bool :=
  match p !! i, p !! j with
  | Some a, Some b => Some (Less a b)
  | _, _ => None
  end.

(** The calls the expiration check inside [Add] makes, if it runs: it runs
    [dt] after the item was created. *)
Definition checkEvents (k : K) (ls : time_Duration) (d : D) (dt : time_Duration) (w : World)
  : list Event :=
  if moreImminent ls (cleanupInterval (table w))
  then flat_map (fun kv => deleteEvents (inserted k ls d w) (fst kv) (snd kv))
         (List.filter (fun kv => expired (clock w + dt) (deref (inserted k ls d w) (snd kv)))
                      (range_map (items (table (inserted k ls d w)))))
  else [].

(** The client registers the callbacks [cbs], one after the other, on the
    item [p]. *)
Definition registerAll (p : loc) (cbs : list Callback) (w : World) : World :=
  fold_left (fun w f => AddAboutToExpireCallback p f w) cbs w.

(** Every stored item is stored under its own key, exists, and is stored
    under that key alone. *)
Definition keys_ok (w : World) : Prop :=
  (forall k p, items (table w) !! k = Some p ->
     (p < next (heap w))%nat /\ key (deref w p) = k) /\
  (forall f, loadData (table w) = Some f -> loader_ok f /\
     forall k args now h p, (p < next h)%nat ->
       key (cell (fst (f k args now h)) p) = key (cell h p)).

(** Operations whose loader, besides being well behaved, leaves the keys of
    the items alone (as any Go client must: the field is private). *)
Definition op_keeps_keys (op : Op) : Prop :=
  op_ok op /\
  match op with
  | OpSetDataLoader f =>
      forall k args now h p, (p < next h)%nat ->
        key (cell (fst (f k args now h)) p) = key (cell h p)
  | _ => True
  end.

(** The operations that may write to the item [p]: those a client aims at
    the pointer, a [Value] that finds [p], and a [Value] that runs the
    loader. *)
Definition mayWrite (op : Op) (w : World) (p : loc) : Prop :=
  match op with
  | OpValue k _ _ =>
      items (table w) !! k = Some p \/
      (items (table w) !! k = None /\ loadData (table w) <> None)
  | OpKeepAlive q | OpSetAboutToExpireCallback q _ | OpAddAboutToExpireCallback q _ => q = p
  | _ => False
  end.

(** * Properties *)

(** ** Arithmetic of instants and durations *)

Lemma wrap64_int64 z : int64 z -> wrap64 z = z.
Proof.
  unfold int64, wrap64, minDuration, maxDuration. intros Hz.
  rewrite Z.mod_small; lia.
Qed.

Lemma Sub_self t : Sub t t = 0.
Proof. unfold Sub. rewrite Z.sub_diag. reflexivity. Qed.

Lemma Sub_nonneg now t : t <= now -> 0 <= Sub now t.
Proof.
  unfold Sub, maxDuration, minDuration. intros Ht.
  repeat case_match; lia.
Qed.

Lemma Sub_exact now t : t <= now -> now - t <= maxDuration -> Sub now t = now - t.
Proof.
  unfold Sub, maxDuration, minDuration. intros Ht Hm.
  repeat case_match; lia.
Qed.

Lemma Sub_ge_iff now t ls :
  t <= now -> int64 ls -> (Sub now t >=? ls) = true <-> ls <= now - t.
Proof.
  unfold Sub, int64, maxDuration, minDuration. intros Ht Hls.
  repeat case_match; lia.
Qed.

(** What the sweep computes for an item that survives is the plain
    difference, when the item was last accessed in the past. *)
Lemma dur_sub_remaining now (it : CacheItem) :
  accessedOn it <= now -> int64 (lifeSpan it) ->
  (Sub now (accessedOn it) >=? lifeSpan it) = false ->
  dur_sub (lifeSpan it) (Sub now (accessedOn it)) = remaining now it /\
  0 < remaining now it.
Proof.
  intros Ht Hls Hlt. unfold dur_sub, remaining.
  assert (Hnot : ~ lifeSpan it <= now - accessedOn it).
  { intros Hc. apply (Sub_ge_iff now (accessedOn it) (lifeSpan it) Ht Hls) in Hc. congruence. }
  unfold int64, maxDuration, minDuration in Hls.
  rewrite Sub_exact by (unfold maxDuration; lia).
  split; [|lia]. apply wrap64_int64. unfold int64, maxDuration, minDuration. lia.
Qed.

(** ** Value: which lookups fail, and how (claim C1) *)

(** C1. [Value k] fails with [ErrKeyNotFoundOrLoadable] exactly when the key
    is absent, a loader is configured and the loader returns no item; it fails
    with [ErrKeyNotFound] exactly when the key is absent and no loader is
    configured; when the key is present it succeeds and returns the stored
    item, which is still the item stored under the key afterwards. *)
Theorem Value_errors (k : K) (args : list A) (dt : time_Duration) (w : World) :
  (snd (Value k args dt w) = Err ErrKeyNotFoundOrLoadable <->
     items (table w) !! k = None /\
     exists load, loadData (table w) = Some load /\
                  snd (load k args (clock w) (heap w)) = None) /\
  (snd (Value k args dt w) = Err ErrKeyNotFound <->
     items (table w) !! k = None /\ loadData (table w) = None) /\
  (forall r, items (table w) !! k = Some r ->
     snd (Value k args dt w) = Ok r /\
     items (table (fst (Value k args dt w))) !! k = Some r).
Proof.
  unfold Value.
  destruct (items (table w) !! k) as [r|] eqn:Hk.
  - split; [|split].
    + split; [discriminate | intros [? _]; discriminate].
    + split; [discriminate | intros [? _]; discriminate].
    + intros r' [= <-]. split; [reflexivity | exact Hk].
  - destruct (loadData (table w)) as [load|] eqn:Hl.
    + destruct (load k args (clock w) (heap w)) as [h [item|]] eqn:Hload; simpl.
      * split; [|split]; [split | split |]; try discriminate.
        -- intros (_ & load' & [= <-] & Hn). rewrite Hload in Hn. discriminate.
        -- intros [_ ?]; discriminate.
      * split; [|split]; [split | split |]; try discriminate.
        -- intros _. split; [reflexivity|]. exists load. rewrite Hload. auto.
        -- reflexivity.
        -- intros [_ ?]; discriminate.
    + split; [|split]; [split | split |]; try discriminate.
      * intros (_ & load' & ? & _). discriminate.
      * auto.
      * reflexivity.
Qed.

(** ** Delete (claim C2) *)

Lemma Delete_absent (k : K) (w : World) :
  items (table w) !! k = None -> Delete k w = (w, Err ErrKeyNotFound).
Proof. unfold Delete, deleteInternal. intros ->. reflexivity. Qed.

Lemma holds_stored (w : World) (k : K) (r : loc) :
  items (table w) !! k = Some r -> holds w k r = true.
Proof. unfold holds. intros ->. apply Nat.eqb_refl. Qed.

Lemma Delete_present (k : K) (w : World) r :
  items (table w) !! k = Some r ->
  Delete k w =
    (mkWorld (heap w) (set_items (delete k (items (table w))) (table w)) (clock w)
       (trace w ++ deleteEvents w k r), Ok r).
Proof.
  intros Hr. unfold Delete, deleteInternal. rewrite Hr.
  unfold deleteCallbacks, deleteEvents, emit, with_table, deref.
  cbn [table heap clock trace items aboutToDeleteItem].
  change (holds (mkWorld (heap w) (table w) (clock w) _) k r) with (holds w k r).
  rewrite (holds_stored w k r Hr), <- app_assoc. reflexivity.
Qed.

(** C2. [Delete k] on a table without [k] fails with [ErrKeyNotFound] and
    leaves the world as it was.  On a table that stores [r] under [k] it
    returns [r] and removes the entry of [k], and nothing else, from the item
    map; to the trace it adds one call on the item per entry of the table's
    about-to-delete queue, in queue order, then one call on the key per entry
    of the item's about-to-expire queue, in queue order, and nothing more.
    Every one of these calls is made before the removal: the callback finds
    [r] under [k] in the item map (the [true] of its event), although the
    entry is gone when [Delete] returns.  Queue order is registration order:
    registering a callback puts it at the end of its queue. *)
Theorem Delete_callbacks (k : K) (w : World) :
  (items (table w) !! k = None -> Delete k w = (w, Err ErrKeyNotFound)) /\
  (forall r, items (table w) !! k = Some r ->
     Delete k w =
       (mkWorld (heap w) (set_items (delete k (items (table w))) (table w)) (clock w)
          (trace w
           ++ map (fun f => CallAboutToDeleteItem f r true) (aboutToDeleteItem (table w))
           ++ map (fun f => CallAboutToExpire f k true) (aboutToExpire (deref w r))),
        Ok r) /\
     holds (fst (Delete k w)) k r = false /\
     forall k', k' <> k ->
       items (table (fst (Delete k w))) !! k' = items (table w) !! k') /\
  (forall f, aboutToDeleteItem (table (AddAboutToDeleteItemCallback f w)) =
             aboutToDeleteItem (table w) ++ [f]) /\
  (forall p f, aboutToExpire (deref (AddAboutToExpireCallback p f w) p) =
               aboutToExpire (deref w p) ++ [f]).
Proof.
  split; [apply Delete_absent|]. split; [|split].
  - intros r Hr. rewrite (Delete_present k w r Hr). cbn [fst]. split; [|split].
    + reflexivity.
    + unfold holds. cbn. by rewrite lookup_delete_eq.
    + intros k' Hne. cbn. by rewrite lookup_delete_ne.
  - reflexivity.
  - intros p f. unfold AddAboutToExpireCallback, deref, with_heap, store.
    cbn -[Nat.eqb]. rewrite Nat.eqb_refl. reflexivity.
Qed.

(** ** The sweep *)

Lemma world_eta (w : World) :
  mkWorld (heap w) (set_items (items (table w)) (table w)) (clock w) (trace w ++ []) = w.
Proof. destruct w as [h [] c tr]. simpl. rewrite app_nil_r. reflexivity. Qed.

Lemma sweepItem_inject now w0 s kv :
  sweepItem now (inject w0 s) kv = inject w0 (sweepPure now w0 s kv).
Proof.
  destruct s as [[m evs] sd], kv as [k item].
  unfold sweepItem, sweepPure, inject, deref. simpl.
  set (it := cell (heap w0) item).
  destruct (lifeSpan it =? 0); [reflexivity|].
  destruct (Sub now (accessedOn it) >=? lifeSpan it).
  - unfold deleteInternal. simpl.
    destruct (m !! k) as [r|] eqn:Hk; [|reflexivity].
    unfold deleteCallbacks, deleteEvents, emit, with_table, deref, holds. simpl.
    rewrite Hk, Nat.eqb_refl, <- !app_assoc. reflexivity.
  - destruct ((sd =? 0) || (dur_sub (lifeSpan it) (Sub now (accessedOn it)) <? sd));
      reflexivity.
Qed.

(** The loop of the sweep only touches the item map and the trace. *)
Lemma sweep_fold now l w sd :
  fold_left (sweepItem now) l (w, sd) =
  inject w (fold_left (sweepPure now w) l (items (table w), [], sd)).
Proof.
  transitivity (fold_left (sweepItem now) l (inject w (items (table w), [], sd))).
  { unfold inject. simpl. rewrite world_eta. reflexivity. }
  generalize (items (table w), @nil Event, sd).
  induction l as [|kv l IH]; intros s; cbn [fold_left]; [reflexivity|].
  rewrite sweepItem_inject. apply IH.
Qed.

Lemma sweepPure_lookup now w0 l : forall s k p,
  (fold_left (sweepPure now w0) l s).1.1 !! k = Some p <->
  s.1.1 !! k = Some p /\
  ~ exists q, (k, q) ∈ l /\ expired now (deref w0 q) = true.
Proof.
  induction l as [|[k' q'] l IH]; intros s k p; simpl.
  - split; [intros Hs; split; [done|] | tauto].
    intros (q & Hq & _). by apply elem_of_nil in Hq.
  - rewrite IH. clear IH. unfold sweepPure, expired. simpl.
    set (it := deref w0 q').
    assert (Hcons : forall q, (k, q) ∈ (k', q') :: l <-> (k = k' /\ q = q') \/ (k, q) ∈ l).
    { intros q. rewrite elem_of_cons. split; intros [Heq|Hin]; auto.
      - injection Heq as -> ->. auto.
      - destruct Heq as [-> ->]. auto. }
    destruct (lifeSpan it =? 0) eqn:H0; simpl.
    { split; intros [Hs Hn]; split; try done.
      - intros (q & Hq & He). apply Hcons in Hq as [[-> ->]|Hq].
        + fold it in He. rewrite H0 in He. discriminate.
        + apply Hn. eauto.
      - intros (q & Hq & He). apply Hn. exists q. rewrite Hcons. auto. }
    destruct (Sub now (accessedOn it) >=? lifeSpan it) eqn:Hge; simpl.
    + destruct (decide (k = k')) as [->|Hne].
      * split.
        -- intros [Hs _]. exfalso.
           destruct (s.1.1 !! k') eqn:Hk'; simpl in Hs.
           ++ rewrite lookup_delete_eq in Hs. discriminate.
           ++ congruence.
        -- intros [_ Hn]. exfalso. apply Hn. exists q'. rewrite Hcons.
           split; [auto|]. fold it. rewrite H0, Hge. reflexivity.
      * assert (Hsame : (match s.1.1 !! k' with
                         | Some r => (delete k' s.1.1, s.1.2 ++ deleteEvents w0 k' r, s.2)
                         | None => s end).1.1 !! k = s.1.1 !! k).
        { destruct (s.1.1 !! k'); simpl; [|reflexivity]. by rewrite lookup_delete_ne. }
        rewrite Hsame. split; intros [Hs Hn]; split; try done.
        -- intros (q & Hq & He). apply Hcons in Hq as [[-> ->]|Hq]; [done|].
           apply Hn. eauto.
        -- intros (q & Hq & He). apply Hn. exists q. rewrite Hcons. auto.
    + assert (Hsame : (if (s.2 =? 0) || (dur_sub (lifeSpan it) (Sub now (accessedOn it)) <? s.2)
                       then (s.1.1, s.1.2, dur_sub (lifeSpan it) (Sub now (accessedOn it)))
                       else s).1.1 = s.1.1).
      { destruct (_ || _); reflexivity. }
      rewrite Hsame. split; intros [Hs Hn]; split; try done.
      * intros (q & Hq & He). apply Hcons in Hq as [[-> ->]|Hq].
        -- fold it in He. rewrite Hge in He. rewrite andb_false_r in He. discriminate.
        -- apply Hn. eauto.
      * intros (q & Hq & He). apply Hn. exists q. rewrite Hcons. auto.
Qed.


Lemma sweepPure_events now w0 l : forall s,
  NoDup l.*1 ->
  (forall k q, (k, q) ∈ l -> s.1.1 !! k = Some q) ->
  (fold_left (sweepPure now w0) l s).1.2 =
  s.1.2 ++ flat_map (fun kv => deleteEvents w0 (fst kv) (snd kv))
                    (List.filter (fun kv => expired now (deref w0 (snd kv))) l).
Proof.
  induction l as [|[k q] l IH]; intros s Hnd Hin.
  - simpl. by rewrite app_nil_r.
  - rewrite fmap_cons in Hnd. apply NoDup_cons in Hnd as [Hk Hnd].
    assert (Hkq : s.1.1 !! k = Some q) by (apply Hin; left).
    assert (Htl : forall k' q', (k', q') ∈ l -> s.1.1 !! k' = Some q')
      by (intros k' q' Hq'; apply Hin; by right).
    cbn [fold_left List.filter fst snd].
    destruct (expired now (deref w0 q)) eqn:He.
    + assert (Hsp : sweepPure now w0 s (k, q) =
                    (delete k s.1.1, s.1.2 ++ deleteEvents w0 k q, s.2)).
      { unfold expired in He. apply andb_true_iff in He as [Hnz Hge].
        unfold sweepPure. cbn [fst snd].
        apply negb_true_iff in Hnz. rewrite Hnz, Hge, Hkq. reflexivity. }
      rewrite Hsp, IH; cbn [fst snd flat_map].
      * by rewrite <- app_assoc.
      * done.
      * intros k' q' Hq'. rewrite lookup_delete_ne; [by apply Htl|].
        intros ->. apply Hk. apply list_elem_of_fmap. by exists (k', q').
    + assert (Hsp : (sweepPure now w0 s (k, q)).1.1 = s.1.1 /\
                    (sweepPure now w0 s (k, q)).1.2 = s.1.2).
      { unfold expired in He. unfold sweepPure. cbn [fst snd].
        destruct (lifeSpan (deref w0 q) =? 0); [done|].
        simpl in He. rewrite He. destruct (_ || _); done. }
      destruct Hsp as [Hsp1 Hsp2].
      rewrite IH; rewrite ?Hsp1, ?Hsp2; done.
Qed.

Lemma sweepPure_snd now w0 s kv :
  (sweepPure now w0 s kv).2 =
  if negb (lifeSpan (deref w0 kv.2) =? 0) && negb (expired now (deref w0 kv.2))
  then if (s.2 =? 0) || (dur_sub (lifeSpan (deref w0 kv.2))
                           (Sub now (accessedOn (deref w0 kv.2))) <? s.2)
       then dur_sub (lifeSpan (deref w0 kv.2)) (Sub now (accessedOn (deref w0 kv.2)))
       else s.2
  else s.2.
Proof.
  unfold sweepPure, expired. set (it := deref w0 kv.2).
  destruct (lifeSpan it =? 0); simpl; [reflexivity|].
  destruct (Sub now (accessedOn it) >=? lifeSpan it); simpl.
  - destruct (s.1.1 !! kv.1); reflexivity.
  - destruct (_ || _); reflexivity.
Qed.

Lemma live_true now (it : CacheItem) :
  negb (lifeSpan it =? 0) && negb (expired now it) = true <-> live now it.
Proof.
  unfold live. rewrite andb_true_iff, !negb_true_iff, Z.eqb_neq. tauto.
Qed.

(** The duration the loop ends with is the smallest remaining lifespan of
    the live items it saw, or the duration it started with. *)
Lemma sweepPure_min now w0 l : forall s,
  (forall k q, (k, q) ∈ l ->
     accessedOn (deref w0 q) <= now /\ int64 (lifeSpan (deref w0 q))) ->
  0 <= s.2 ->
  let r := (fold_left (sweepPure now w0) l s).2 in
  0 <= r /\
  (s.2 <> 0 -> 0 < r <= s.2) /\
  (forall k q, (k, q) ∈ l -> live now (deref w0 q) ->
     0 < r <= remaining now (deref w0 q)) /\
  (r = s.2 \/
   exists k q, (k, q) ∈ l /\ live now (deref w0 q) /\ r = remaining now (deref w0 q)).
Proof.
  induction l as [|[k q] l IH]; intros s Hwf Hs; simpl.
  - split; [lia|]. split; [lia|]. split; [|by left].
    intros k q Hq. by apply elem_of_nil in Hq.
  - assert (Hwf' : forall k' q', (k', q') ∈ l ->
       accessedOn (deref w0 q') <= now /\ int64 (lifeSpan (deref w0 q')))
      by (intros k' q' Hq'; apply (Hwf k'); by right).
    destruct (Hwf k q) as [Hacc Hls]; [by left|].
    pose proof (sweepPure_snd now w0 s (k, q)) as Hsnd. simpl in Hsnd.
    set (s' := sweepPure now w0 s (k, q)) in *.
    destruct (negb (lifeSpan (deref w0 q) =? 0) && negb (expired now (deref w0 q))) eqn:Hlive.
    + apply live_true in Hlive.
      assert (Hexp : (Sub now (accessedOn (deref w0 q)) >=? lifeSpan (deref w0 q)) = false).
      { destruct Hlive as [Hnz He]. unfold expired in He.
        apply andb_false_iff in He as [He|He]; [|done].
        apply negb_false_iff, Z.eqb_eq in He. done. }
      destruct (dur_sub_remaining now (deref w0 q) Hacc Hls Hexp) as [Hrem Hpos].
      rewrite Hrem in Hsnd.
      assert (Hs' : 0 < s'.2 /\ s'.2 <= remaining now (deref w0 q) /\
                    (s.2 <> 0 -> s'.2 <= s.2) /\
                    (s'.2 = s.2 \/ s'.2 = remaining now (deref w0 q))).
      { rewrite Hsnd. destruct (s.2 =? 0) eqn:Hz; simpl.
        - apply Z.eqb_eq in Hz. lia.
        - apply Z.eqb_neq in Hz.
          destruct (remaining now (deref w0 q) <? s.2) eqn:Hlt; lia. }
      destruct Hs' as (Hp & Hle & Hmono & Hor).
      destruct (IH s' Hwf' ltac:(lia)) as (I1 & I2 & I3 & I4).
      specialize (I2 ltac:(lia)).
      split; [lia|]. split; [|split].
      * intros Hnz. specialize (Hmono Hnz). lia.
      * intros k' q' Hq' Hl'. apply elem_of_cons in Hq' as [[= -> ->]|Hq']; [lia|].
        by apply (I3 k' q').
      * destruct I4 as [I4|(k' & q' & Hq' & Hl' & I4)].
        -- destruct Hor as [Hor|Hor]; [left; lia|].
           right. exists k, q. split; [by left|]. split; [done|lia].
        -- right. exists k', q'. split; [by right|]. done.
    + assert (Hnl : ~ live now (deref w0 q)).
      { intros Hl. apply live_true in Hl. congruence. }
      destruct (IH s' Hwf' ltac:(lia)) as (I1 & I2 & I3 & I4).
      rewrite Hsnd in I2, I4.
      split; [lia|]. split; [done|]. split.
      * intros k' q' Hq' Hl'. apply elem_of_cons in Hq' as [[= -> ->]|Hq']; [done|].
        by apply (I3 k' q').
      * destruct I4 as [I4|(k' & q' & Hq' & Hl' & I4)]; [by left|].
        right. exists k', q'. split; [by right|]. done.
Qed.

(** [expirationCheck], with its loop replaced by the loop on its own. *)
Lemma expirationCheck_unfold (w : World) :
  let s := fold_left (sweepPure (clock w) w) (range_map (items (table w)))
                     (items (table w), [], 0) in
  expirationCheck w =
  mkWorld (heap w)
    (mkCacheTable (name (table w)) s.1.1
       (if 0 <? s.2 then Some (AfterFunc (clock w) s.2)
        else Stop <$> cleanupTimer (table w))
       s.2 (loadData (table w)) (addedItem (table w)) (aboutToDeleteItem (table w)))
    (clock w) (trace w ++ s.1.2).
Proof.
  intros s. unfold expirationCheck.
  rewrite sweep_fold.
  change (fold_left _ _ _) with s.
  unfold inject. cbn [fst snd].
  destruct (0 <? s.2); reflexivity.
Qed.

Lemma range_map_elem (m : gmap K loc) k q : (k, q) ∈ range_map m <-> m !! k = Some q.
Proof. rewrite (range_map_perm m). apply elem_of_map_to_list. Qed.

Lemma range_map_NoDup (m : gmap K loc) : NoDup (range_map m).*1.
Proof. rewrite (range_map_perm m). apply NoDup_fst_map_to_list. Qed.

(** The sweep keeps exactly the entries whose item has not expired. *)
Lemma expirationCheck_lookup (w : World) k p :
  items (table (expirationCheck w)) !! k = Some p <->
  items (table w) !! k = Some p /\ expired (clock w) (deref w p) = false.
Proof.
  rewrite expirationCheck_unfold. cbn [table items].
  rewrite sweepPure_lookup. cbn [fst].
  split; intros [Hk Hn]; split; try done.
  - destruct (expired (clock w) (deref w p)) eqn:He; [|done].
    exfalso. apply Hn. exists p. by rewrite range_map_elem.
  - intros (q & Hq & He). apply range_map_elem in Hq. congruence.
Qed.

Lemma expirationCheck_heap (w : World) : heap (expirationCheck w) = heap w.
Proof. by rewrite expirationCheck_unfold. Qed.

Lemma expirationCheck_clock (w : World) : clock (expirationCheck w) = clock w.
Proof. by rewrite expirationCheck_unfold. Qed.

Lemma expirationCheck_loadData (w : World) :
  loadData (table (expirationCheck w)) = loadData (table w).
Proof. by rewrite expirationCheck_unfold. Qed.

Lemma expirationCheck_trace (w : World) :
  trace (expirationCheck w) =
  trace w ++ flat_map (fun kv => deleteEvents w (fst kv) (snd kv))
               (List.filter (fun kv => expired (clock w) (deref w (snd kv)))
                            (range_map (items (table w)))).
Proof.
  rewrite expirationCheck_unfold. cbn [trace].
  rewrite sweepPure_events; [done|apply range_map_NoDup|].
  intros k q Hq. by apply range_map_elem.
Qed.

Lemma expired_iff now (it : CacheItem) :
  accessedOn it <= now -> int64 (lifeSpan it) ->
  expired now it = true <-> lifeSpan it <> 0 /\ lifeSpan it <= now - accessedOn it.
Proof.
  intros Ha Hl. unfold expired.
  rewrite andb_true_iff, negb_true_iff, Z.eqb_neq, (Sub_ge_iff _ _ _ Ha Hl). tauto.
Qed.


(** What the sweep leaves in [cleanupInterval] and [cleanupTimer]. *)
Lemma expirationCheck_interval (w : World) :
  items_ok w ->
  let w' := expirationCheck w in
  0 <= cleanupInterval (table w') /\
  (forall k p, items (table w') !! k = Some p -> lifeSpan (deref w p) <> 0 ->
     0 < cleanupInterval (table w') <= remaining (clock w) (deref w p)) /\
  (cleanupInterval (table w') = 0 \/
   exists k p, items (table w') !! k = Some p /\ lifeSpan (deref w p) <> 0 /\
               cleanupInterval (table w') = remaining (clock w) (deref w p)) /\
  (0 < cleanupInterval (table w') ->
     cleanupTimer (table w') = Some (AfterFunc (clock w) (cleanupInterval (table w')))) /\
  (cleanupInterval (table w') = 0 ->
     cleanupTimer (table w') = Stop <$> cleanupTimer (table w)).
Proof.
  intros Hok w'.
  pose proof (sweepPure_min (clock w) w (range_map (items (table w)))
                (items (table w), [], 0)) as Hmin.
  cbn [snd] in Hmin.
  destruct Hmin as (M1 & _ & M3 & M4); [|lia|].
  { intros k q Hq. apply range_map_elem in Hq. by apply (Hok k). }
  assert (Hlive : forall k p, items (table w') !! k = Some p ->
            lifeSpan (deref w p) <> 0 ->
            (k, p) ∈ range_map (items (table w)) /\ live (clock w) (deref w p)).
  { intros k p Hk Hnz. apply expirationCheck_lookup in Hk as [Hk He].
    split; [by apply range_map_elem|]. by split. }
  subst w'. revert Hlive. rewrite expirationCheck_unfold. cbn [table items cleanupInterval cleanupTimer].
  intros Hlive. split; [done|]. split; [|split; [|split]].
  - intros k p Hk Hnz. destruct (Hlive k p Hk Hnz) as [Hin Hl]. by apply (M3 k p).
  - destruct M4 as [M4|(k & p & Hin & Hl & M4)]; [by left|]. right.
    exists k, p. split; [|split; [apply Hl|done]].
    apply sweepPure_lookup. cbn [fst]. split; [by apply range_map_elem|].
    intros (q & Hq & He). apply range_map_elem in Hq, Hin.
    assert (q = p) as -> by congruence. destruct Hl as [_ Hl]. congruence.
  - intros Hpos. apply Z.ltb_lt in Hpos. by rewrite Hpos.
  - intros ->. reflexivity.
Qed.

(** ** One expiration sweep (claim C3) *)


(** ** Adding items *)

Lemma Add_unfold k ls d dt (w : World) :
  Add k ls d dt w =
  (if moreImminent ls (cleanupInterval (table w))
   then expirationCheck (Tick dt (inserted k ls d w)) else Tick dt (inserted k ls d w),
   next (heap w)).
Proof.
  unfold Add, NewCacheItem, addInternal, alloc, deref, holds.
  cbn -[Nat.eqb expirationCheck]. rewrite Nat.eqb_refl.
  cbn -[Nat.eqb expirationCheck]. rewrite lookup_insert_eq, Nat.eqb_refl. reflexivity.
Qed.

Lemma inserted_new k ls d (w : World) :
  deref (inserted k ls d w) (next (heap w)) = newItem k ls d (clock w).
Proof. unfold deref, inserted, alloc. cbn -[Nat.eqb]. by rewrite Nat.eqb_refl. Qed.

Lemma inserted_old k ls d (w : World) p :
  (p < next (heap w))%nat -> deref (inserted k ls d w) p = deref w p.
Proof.
  intros Hp. unfold deref, inserted, alloc. cbn -[Nat.eqb].
  destruct (Nat.eqb_spec p (next (heap w))); [lia|done].
Qed.

(** A check that reads the clock [dt] after an item was created finds it
    expired exactly when its lifespan, if positive, is no more than [dt]. *)
Lemma newItem_expired k ls d now dt :
  int64 ls -> 0 <= dt -> 0 < ls -> expired (now + dt) (newItem k ls d now) = (ls <=? dt).
Proof.
  intros Hls Hdt Hpos.
  assert (Hiff : expired (now + dt) (newItem k ls d now) = true <-> ls <> 0 /\ ls <= dt).
  { rewrite expired_iff; cbn [newItem accessedOn lifeSpan]; [|lia|done].
    replace (now + dt - now) with dt by lia. reflexivity. }
  destruct (expired (now + dt) (newItem k ls d now)); destruct (ls <=? dt) eqn:Hle; try done.
  - destruct Hiff as [Hiff _]. specialize (Hiff eq_refl). lia.
  - destruct Hiff as [_ Hiff]. discriminate Hiff. lia.
Qed.

(** [Add] returns a fresh pointer to an item with the contents [NewCacheItem]
    gave it; the items that existed are as they were; the clock has moved by
    the time the call took. *)
Lemma Add_spec k ls d dt (w : World) :
  let w' := fst (Add k ls d dt w) in
  snd (Add k ls d dt w) = next (heap w) /\
  deref w' (next (heap w)) = newItem k ls d (clock w) /\
  (forall p, (p < next (heap w))%nat -> deref w' p = deref w p) /\
  next (heap w') = S (next (heap w)) /\
  clock w' = clock w + dt /\
  loadData (table w') = loadData (table w).
Proof.
  rewrite Add_unfold. cbn [fst snd]. split; [done|].
  destruct (moreImminent ls (cleanupInterval (table w))) eqn:Hm.
  - unfold deref. rewrite expirationCheck_heap, expirationCheck_clock, expirationCheck_loadData.
    split; [apply inserted_new| split; [intros p; apply inserted_old|done]].
  - split; [apply inserted_new| split; [intros p; apply inserted_old|done]].
Qed.

(** What [Add] leaves in the map is what the insertion put there, less what
    the check deleted. *)
Lemma Add_lookup k ls d dt (w : World) k' p :
  items (table (fst (Add k ls d dt w))) !! k' = Some p ->
  <[k := next (heap w)]> (items (table w)) !! k' = Some p.
Proof.
  rewrite Add_unfold. cbn [fst].
  destruct (moreImminent _ _); [|done]. rewrite expirationCheck_lookup. tauto.
Qed.

(** After [Add] the key holds the new item, unless that item has fallen to
    the check its own insertion triggered: then the key holds nothing. *)
Lemma Add_stored k ls d dt (w : World) :
  int64 ls -> 0 <= dt ->
  items (table (fst (Add k ls d dt w))) !! k =
  if expiresAtOnce ls dt (cleanupInterval (table w)) then None else Some (next (heap w)).
Proof.
  intros Hls Hdt. unfold expiresAtOnce. rewrite Add_unfold. cbn [fst].
  destruct (moreImminent ls (cleanupInterval (table w))) eqn:Hm; cbn [andb].
  2: { cbn. apply lookup_insert_eq. }
  assert (Hpos : 0 < ls) by (unfold moreImminent in Hm; lia).
  assert (Hins : items (table (Tick dt (inserted k ls d w))) !! k = Some (next (heap w))).
  { cbn. apply lookup_insert_eq. }
  assert (Hexp : expired (clock (Tick dt (inserted k ls d w)))
                   (deref (Tick dt (inserted k ls d w)) (next (heap w))) = (ls <=? dt)).
  { change (deref (Tick dt (inserted k ls d w)) (next (heap w)))
      with (deref (inserted k ls d w) (next (heap w))).
    rewrite inserted_new. cbn [Tick inserted clock]. by apply newItem_expired. }
  destruct (ls <=? dt).
  - destruct (items (table (expirationCheck (Tick dt (inserted k ls d w)))) !! k)
      as [q|] eqn:Hq; [|done].
    apply expirationCheck_lookup in Hq as [Hq He]. rewrite Hins in Hq.
    injection Hq as <-. congruence.
  - apply expirationCheck_lookup. done.
Qed.

Lemma Add_kept k ls d dt (w : World) :
  int64 ls -> 0 <= dt -> expiresAtOnce ls dt (cleanupInterval (table w)) = false ->
  items (table (fst (Add k ls d dt w))) !! k = Some (next (heap w)).
Proof. intros Hls Hdt He. by rewrite Add_stored, He. Qed.

Lemma NotFoundAdd_absent k ls d dt (w : World) :
  items (table w) !! k = None -> NotFoundAdd k ls d dt w = (fst (Add k ls d dt w), true).
Proof.
  intros Hk. unfold NotFoundAdd, Add. rewrite Hk.
  destruct (NewCacheItem k ls d w). reflexivity.
Qed.

Lemma Add_trace k ls d dt (w : World) :
  trace (fst (Add k ls d dt w)) =
  trace w ++ map (fun f => CallAddedItem f (next (heap w)) true) (addedItem (table w))
          ++ checkEvents k ls d dt w.
Proof.
  rewrite Add_unfold. cbn [fst]. unfold checkEvents.
  destruct (moreImminent ls (cleanupInterval (table w))).
  - rewrite expirationCheck_trace. cbn [inserted Tick trace clock table heap].
    by rewrite <- app_assoc.
  - cbn. by rewrite app_nil_r.
Qed.

(** ** NotFoundAdd (claim C7) *)

(** C7, as the code has it.  [NotFoundAdd k ls d] returns [true] exactly
    when [k] is absent.  Then it creates a new item (a fresh pointer, with
    the given key, lifespan and data, created and accessed now, never read),
    puts it into the map under [k] and calls the added-item callbacks on it,
    which find it there; no item that existed is altered.  When the call
    returns, [k] holds the new item unless the item expired at once: with a
    positive lifespan that calls for an expiration check, the check reads the
    clock again and deletes the new item when its lifespan has passed since
    it was created; [k] is then absent although the call returns [true].
    When [k] is present it returns [false] and the world, the stored item
    with its data, lifespan, timestamps and access count included, is as it
    was. *)
Theorem NotFoundAdd_spec k ls d dt (w : World) :
  (snd (NotFoundAdd k ls d dt w) = true <-> items (table w) !! k = None) /\
  (items (table w) !! k = None ->
     let w' := fst (NotFoundAdd k ls d dt w) in
     deref w' (next (heap w)) = mkCacheItem k d ls (clock w) (clock w) 0 [] /\
     (forall p, (p < next (heap w))%nat -> deref w' p = deref w p) /\
     trace w' =
       trace w ++ map (fun f => CallAddedItem f (next (heap w)) true) (addedItem (table w))
               ++ checkEvents k ls d dt w /\
     (int64 ls -> 0 <= dt ->
      items (table w') !! k =
        if expiresAtOnce ls dt (cleanupInterval (table w)) then None
        else Some (next (heap w)))) /\
  (forall r, items (table w) !! k = Some r -> NotFoundAdd k ls d dt w = (w, false)).
Proof.
  split; [|split].
  - destruct (items (table w) !! k) as [r|] eqn:Hk.
    + unfold NotFoundAdd. rewrite Hk. cbn. split; discriminate.
    + rewrite NotFoundAdd_absent by done. cbn. done.
  - intros Hk. rewrite NotFoundAdd_absent by done. cbn [fst].
    destruct (Add_spec k ls d dt w) as (_ & H2 & H3 & _).
    split; [exact H2|]. split; [exact H3|]. split; [apply Add_trace|apply Add_stored].
  - intros r Hk. unfold NotFoundAdd. by rewrite Hk.
Qed.

(** ** Add, then Value (claim C6) *)

Lemma KeepAlive_deref (w : World) r :
  deref (KeepAlive r w) r =
  mkCacheItem (key (deref w r)) (data (deref w r)) (lifeSpan (deref w r))
    (createdOn (deref w r)) (clock w) (accessCount (deref w r) + 1)
    (aboutToExpire (deref w r)).
Proof. unfold KeepAlive, deref, with_heap, store. cbn -[Nat.eqb]. by rewrite Nat.eqb_refl. Qed.

Lemma Value_hit k args dt (w : World) r :
  items (table w) !! k = Some r -> Value k args dt w = (KeepAlive r w, Ok r).
Proof. intros Hr. unfold Value. by rewrite Hr. Qed.

Lemma Value_load k args dt (w : World) load h item :
  items (table w) !! k = None ->
  loadData (table w) = Some load ->
  load k args (clock w) (heap w) = (h, Some item) ->
  Value k args dt w =
    (fst (Add k (lifeSpan (cell h item)) (data (cell h item)) dt (with_heap (fun _ => h) w)),
     Ok item).
Proof. intros Hk Hl Hload. unfold Value. rewrite Hk, Hl, Hload. reflexivity. Qed.

(** C6, as the code has it.  Right after an [Add k ls d] whose item did not
    expire at once, [Value k] succeeds and returns the item [Add] made, whose
    data is [d]; and every [Value] call that finds its key in the table adds
    exactly 1 to the access count of the item it returns (the pointer stored
    under the key), which it marks as accessed now.  A [Value] call served by
    the loader adds to no access count: it returns the loader's item, which
    like every item that exists is as the loader left it, and the item it
    stores is a new one, with an access count of 0.  (The loader returns a
    pointer to an item that exists.) *)
Theorem Add_then_Value k ls d dt args dt' (w : World) :
  (int64 ls -> 0 <= dt ->
   expiresAtOnce ls dt (cleanupInterval (table w)) = false ->
   snd (Value k args dt' (fst (Add k ls d dt w))) = Ok (snd (Add k ls d dt w)) /\
   data (deref (fst (Value k args dt' (fst (Add k ls d dt w)))) (snd (Add k ls d dt w))) = d) /\
  (forall (w0 : World) k0 args0 dt0 r,
     items (table w0) !! k0 = Some r ->
     snd (Value k0 args0 dt0 w0) = Ok r /\
     accessCount (deref (fst (Value k0 args0 dt0 w0)) r) = accessCount (deref w0 r) + 1 /\
     accessedOn (deref (fst (Value k0 args0 dt0 w0)) r) = clock w0) /\
  (forall (w0 : World) k0 args0 dt0 load h item,
     items (table w0) !! k0 = None ->
     loadData (table w0) = Some load ->
     load k0 args0 (clock w0) (heap w0) = (h, Some item) ->
     (item < next h)%nat ->
     let w1 := fst (Value k0 args0 dt0 w0) in
     snd (Value k0 args0 dt0 w0) = Ok item /\
     deref w1 item = cell h item /\
     (forall p, (p < next h)%nat -> deref w1 p = cell h p) /\
     accessCount (deref w1 (next h)) = 0 /\
     (forall q, items (table w1) !! k0 = Some q -> q = next h)).
Proof.
  split; [|split].
  - intros Hls Hdt Hkept. destruct (Add_spec k ls d dt w) as (Hp & Hnew & _).
    pose proof (Add_kept k ls d dt w Hls Hdt Hkept) as Hk.
    rewrite (Value_hit _ _ _ _ _ Hk), Hp. cbn [fst snd]. split; [done|].
    rewrite KeepAlive_deref, Hnew. reflexivity.
  - intros w0 k0 args0 dt0 r Hr. rewrite (Value_hit _ _ _ _ _ Hr). cbn [fst snd].
    rewrite KeepAlive_deref. done.
  - intros w0 k0 args0 dt0 load h item Hk Hl Hload Hitem w1. subst w1.
    rewrite (Value_load _ _ _ _ _ _ _ Hk Hl Hload). cbn [fst snd].
    set (w2 := with_heap (fun _ => h) w0).
    destruct (Add_spec k0 (lifeSpan (cell h item)) (data (cell h item)) dt0 w2)
      as (_ & Hnew & Hold & _).
    change (next (heap w2)) with (next h) in Hnew, Hold.
    split; [done|]. split; [exact (Hold item Hitem)|].
    split; [exact Hold|]. split; [by rewrite Hnew|].
    intros q Hq. apply Add_lookup in Hq. rewrite lookup_insert_eq in Hq. by injection Hq.
Qed.

(** ** Value served by the loader (claim C10) *)

(** C10, as the code has it.  When [k] is absent and the loader returns an
    item (a pointer to an item that exists), [Value k] returns the loader's
    own item and [Add] creates another one for the table: it has the key [k],
    the lifespan and the data of the loader's item, an access count of 0, and
    it is created and accessed at the current instant.  The two pointers
    differ, and the loader's item is exactly as the loader left it: no
    [KeepAlive] touches either of them.  When [Value] returns, the table
    stores the new item under [k] unless it expired at once (its lifespan is
    positive, calls for an expiration check and has passed when the check
    reads the clock): then [k] is absent again. *)
Theorem Value_loaded k args dt (w : World) load h item :
  items (table w) !! k = None ->
  loadData (table w) = Some load ->
  load k args (clock w) (heap w) = (h, Some item) ->
  (item < next h)%nat ->
  let w' := fst (Value k args dt w) in
  snd (Value k args dt w) = Ok item /\
  (int64 (lifeSpan (cell h item)) -> 0 <= dt ->
   items (table w') !! k =
     if expiresAtOnce (lifeSpan (cell h item)) dt (cleanupInterval (table w)) then None
     else Some (next h)) /\
  next h <> item /\
  deref w' (next h) =
    mkCacheItem k (data (cell h item)) (lifeSpan (cell h item)) (clock w) (clock w) 0 [] /\
  deref w' item = cell h item.
Proof.
  intros Hk Hl Hload Hitem.
  rewrite (Value_load _ _ _ _ _ _ _ Hk Hl Hload). cbn [fst snd].
  set (w2 := with_heap (fun _ => h) w).
  destruct (Add_spec k (lifeSpan (cell h item)) (data (cell h item)) dt w2)
    as (_ & H2 & H3 & _).
  split; [done|]. split; [exact (Add_stored k _ _ dt w2)|].
  split; [lia|]. split; [exact H2|].
  rewrite H3 by exact Hitem. reflexivity.
Qed.

(** ** Flush (claim C8) *)

Lemma range_map_empty : range_map ∅ = [].
Proof.
  apply Permutation_nil_r. rewrite (range_map_perm ∅). by rewrite map_to_list_empty.
Qed.

(** C8. After [Flush] the item map is empty, [Count] is 0, the cleanup
    interval is 0 and no timer is pending: however much time passes, the
    timer does not fire, and a sweep started by anything else finds no item
    to delete and calls no callback. *)
Theorem Flush_spec (w : World) :
  items (table (Flush w)) = ∅ /\
  Count (Flush w) = 0 /\
  cleanupInterval (table (Flush w)) = 0 /\
  (forall tm, cleanupTimer (table (Flush w)) = Some tm -> pending tm = false) /\
  trace (Flush w) = trace w /\
  (forall d, timerFires (Tick d (Flush w)) = Tick d (Flush w)) /\
  trace (expirationCheck (Flush w)) = trace w /\
  items (table (expirationCheck (Flush w))) = ∅.
Proof.
  split; [done|]. split; [done|]. split; [done|].
  split; [|split; [done|split; [|split]]].
  - intros tm. cbn. destruct (cleanupTimer (table w)); cbn; [|done]. by intros [= <-].
  - intros d. unfold timerFires. cbn. by destruct (cleanupTimer (table w)).
  - rewrite expirationCheck_trace. cbn [Flush with_table table items set_items
      set_cleanupInterval set_cleanupTimer trace].
    rewrite range_map_empty. cbn. by rewrite app_nil_r.
  - apply map_eq. intros k. rewrite lookup_empty.
    destruct (items (table (expirationCheck (Flush w))) !! k) as [p|] eqn:Hp; [|done].
    apply expirationCheck_lookup in Hp as [Hp _]. cbn in Hp. by rewrite lookup_empty in Hp.
Qed.

(** ** The access ranking (claim C9) *)

(** The second loop of [MostAccessed] looks up the first [count - c] pairs. *)
Lemma collect_omap (m : gmap K loc) count p : forall c r,
  collect m count c p r =
  r ++ omap (fun v => m !! Key v) (take (Z.to_nat (count - c)) p).
Proof.
  induction p as [|v p IH]; intros c r; cbn [collect].
  - rewrite take_nil. cbn. by rewrite app_nil_r.
  - destruct (c >=? count) eqn:Hc.
    + replace (Z.to_nat (count - c)) with 0%nat by lia. cbn. by rewrite app_nil_r.
    + replace (Z.to_nat (count - c)) with (S (Z.to_nat (count - (c + 1)))) by lia.
      rewrite IH. cbn [take omap list_omap].
      destruct (m !! Key v); [by rewrite <- app_assoc | done].
Qed.

Lemma MostAccessed_omap count (w : World) :
  MostAccessed count w =
  omap (fun v => items (table w) !! Key v) (take (Z.to_nat count) (sort_Sort (pairs w))).
Proof.
  unfold MostAccessed. fold (pairs w). rewrite collect_omap, Z.sub_0_r. done.
Qed.

(** Every pair of the snapshot names a stored item and carries its count. *)
Lemma pairs_stored (w : World) v :
  v ∈ pairs w ->
  exists p, items (table w) !! Key v = Some p /\ AccessCount v = accessCount (deref w p).
Proof.
  unfold pairs. rewrite list_elem_of_fmap. intros ([k q] & -> & Hin).
  apply range_map_elem in Hin. by exists q.
Qed.

Lemma StronglySorted_take {T} (R : relation T) (l : list T) n :
  StronglySorted R l -> StronglySorted R (take n l).
Proof.
  intros Hl. rewrite <- (take_drop n l) in Hl. by apply StronglySorted_app_1_l in Hl.
Qed.

Lemma StronglySorted_omap {T U} (R : relation T) (S : relation U) (f : T -> option U) l :
  (forall a b x y, a ∈ l -> b ∈ l -> f a = Some x -> f b = Some y -> R a b -> S x y) ->
  StronglySorted R l -> StronglySorted S (omap f l).
Proof.
  intros HRS Hl. induction Hl as [|a l Hl IH Hall]; cbn; [constructor|].
  assert (IH' : StronglySorted S (omap f l)).
  { apply IH. intros a' b x y Ha Hb. apply HRS; by right. }
  destruct (f a) as [x|] eqn:Hfa; [|done].
  constructor; [done|]. apply Forall_forall. intros y Hy.
  apply list_elem_of_omap in Hy as (b & Hb & Hfb).
  apply (HRS a b); [by left|by right|done..|].
  rewrite Forall_forall in Hall. by apply Hall.
Qed.

(** C9. [MostAccessed n] returns at most [n] items (none when [n <= 0]), all
    of them stored in the table, in order of non-increasing access count; and
    when [n] is at least the number of stored items it returns all of them. *)
Theorem MostAccessed_spec (n : Z) (w : World) :
  Z.of_nat (length (MostAccessed n w)) <= Z.max 0 n /\
  (n <= 0 -> MostAccessed n w = []) /\
  StronglySorted (fun a b => accessCount (deref w b) <= accessCount (deref w a))
                 (MostAccessed n w) /\
  (forall p, p ∈ MostAccessed n w -> exists k, items (table w) !! k = Some p) /\
  (Count w <= n -> MostAccessed n w ≡ₚ (map_to_list (items (table w))).*2).
Proof.
  rewrite MostAccessed_omap.
  set (f := fun v : CacheItemPair => items (table w) !! Key v).
  assert (Hsorted_in : forall v, v ∈ sort_Sort (pairs w) -> v ∈ pairs w).
  { intros v. by rewrite (sort_Sort_perm (pairs w)). }
  split; [|split; [|split; [|split]]].
  - assert (Hlen : (length (omap f (take (Z.to_nat n) (sort_Sort (pairs w)))) <=
                    length (take (Z.to_nat n) (sort_Sort (pairs w))))%nat).
    { generalize (take (Z.to_nat n) (sort_Sort (pairs w))). intros l.
      induction l as [|v l IH]; cbn; [lia|]. destruct (f v); cbn; lia. }
    rewrite length_take in Hlen. lia.
  - intros Hn. replace (Z.to_nat n) with 0%nat by lia. done.
  - apply (StronglySorted_omap (fun a b => Less b a = false)).
    + intros a b x y Ha Hb Hfa Hfb Hab.
      apply subseteq_take in Ha, Hb.
      apply Hsorted_in, pairs_stored in Ha as (pa & Hpa & Hca).
      apply Hsorted_in, pairs_stored in Hb as (pb & Hpb & Hcb).
      unfold f in Hfa, Hfb. rewrite Hpa in Hfa. rewrite Hpb in Hfb.
      injection Hfa as <-. injection Hfb as <-.
      unfold Less in Hab. lia.
    + apply StronglySorted_take, sort_Sort_sorted.
  - intros p Hp. apply list_elem_of_omap in Hp as (v & _ & Hv). by exists (Key v).
  - intros Hn. unfold Count in Hn.
    rewrite take_ge.
    2: { rewrite (sort_Sort_perm (pairs w)). unfold pairs.
         rewrite length_map, (range_map_perm _), length_map_to_list. lia. }
    rewrite (sort_Sort_perm (pairs w)). unfold pairs.
    rewrite <- (range_map_perm (items (table w))).
    assert (Hall : forall l, (forall k q, (k, q) ∈ l -> items (table w) !! k = Some q) ->
      omap f (map (fun kv => mkCacheItemPair (fst kv) (accessCount (deref w (snd kv)))) l)
      = l.*2).
    { induction l as [|[k q] l IH]; intros Hl; cbn; [done|].
      unfold f at 1. cbn. rewrite (Hl k q) by (by left). f_equal.
      apply IH. intros k' q' Hq'. apply Hl. by right. }
    rewrite Hall; [done|]. intros k q. apply range_map_elem.
Qed.

(** ** The invariant is kept by every operation *)

Lemma stored_ok_items_ok (w : World) : stored_ok w -> items_ok w.
Proof. intros Hs k p Hk. destruct (Hs k p Hk) as (_ & ? & ?). done. Qed.

(** An operation that adds no entry, leaves the scheduler alone, does not
    set the clock back, keeps the lifespans of the stored items and does not
    make them look older keeps the invariant. *)
Lemma Inv_frame (w w' : World) :
  Inv w ->
  (forall k p, items (table w') !! k = Some p -> items (table w) !! k = Some p) ->
  cleanupTimer (table w') = cleanupTimer (table w) ->
  cleanupInterval (table w') = cleanupInterval (table w) ->
  loaders_ok w' ->
  clock w <= clock w' ->
  (forall k p, items (table w') !! k = Some p ->
     (p < next (heap w'))%nat /\
     lifeSpan (deref w' p) = lifeSpan (deref w p) /\
     accessedOn (deref w p) <= accessedOn (deref w' p) <= clock w') ->
  Inv w'.
Proof.
  intros (Hs & Hl & T1 & T2 & T3) Hsub Htm Hint Hl' Hclock Hitems.
  split; [|split; [done|]].
  - intros k p Hk. destruct (Hitems k p Hk) as (Hp & Hls & Ha).
    destruct (Hs k p (Hsub k p Hk)) as (_ & _ & Hi). rewrite Hls. split; [done|]. split; [lia|done].
  - unfold timer_ok. rewrite Hint, Htm. split; [done|]. split.
    + intros Hpos. destruct (T2 Hpos) as (tm & Htm' & Hpend & Hdl & Hall).
      exists tm. split; [done|]. split; [done|]. split; [lia|].
      intros k p Hk Hlp. destruct (Hitems k p Hk) as (Hp & Hls & Ha).
      rewrite Hls in Hlp |- *. specialize (Hall k p (Hsub k p Hk) Hlp). lia.
    + intros Hz. destruct (T3 Hz) as [Hnp Hnone]. split; [done|].
      intros k p Hk. destruct (Hitems k p Hk) as (Hp & Hls & Ha).
      rewrite Hls. apply (Hnone k). by apply Hsub.
Qed.

(** The sweep sets the scheduler right whatever it was. *)
Lemma Inv_expirationCheck (w : World) :
  stored_ok w -> loaders_ok w -> Inv (expirationCheck w).
Proof.
  intros Hs Hl.
  pose proof (expirationCheck_interval w (stored_ok_items_ok w Hs)) as (I1 & I2 & I3 & I4 & I5).
  assert (Hderef : forall p, deref (expirationCheck w) p = deref w p).
  { intros p. unfold deref. by rewrite expirationCheck_heap. }
  split; [|split].
  - intros k p Hk. apply expirationCheck_lookup in Hk as [Hk _].
    rewrite Hderef, expirationCheck_heap, expirationCheck_clock. by apply (Hs k).
  - intros f. rewrite expirationCheck_loadData. apply Hl.
  - split; [done|]. split.
    + intros Hpos. rewrite (I4 Hpos). eexists. split; [done|]. split; [done|].
      cbn [AfterFunc deadline]. rewrite expirationCheck_clock. split; [lia|].
      intros k p Hk. rewrite Hderef. intros Hlp.
      destruct (I2 k p Hk ltac:(lia)) as [_ Hle]. unfold remaining in Hle. lia.
    + intros Hz. rewrite (I5 Hz). split.
      * intros tm. destruct (cleanupTimer (table w)); cbn; [|done]. by intros [= <-].
      * intros k p Hk. rewrite Hderef.
        destruct (Z_le_gt_dec (lifeSpan (deref w p)) 0) as [|Hgt]; [done|].
        destruct (I2 k p Hk ltac:(lia)). lia.
Qed.

Lemma stored_ok_inserted k ls d (w : World) :
  stored_ok w -> int64 ls -> stored_ok (inserted k ls d w).
Proof.
  intros Hs Hls k' p Hk'. cbn [inserted table items set_items] in Hk'.
  assert (Hnext : next (heap (inserted k ls d w)) = S (next (heap w))) by done.
  assert (Hclock : clock (inserted k ls d w) = clock w) by done.
  rewrite Hnext, Hclock.
  apply lookup_insert_Some in Hk' as [[<- <-]|[Hne Hk']].
  - rewrite inserted_new. cbn. split; [lia|]. split; [lia|done].
  - destruct (Hs k' p Hk') as (Hp & Ha & Hi).
    rewrite inserted_old by done. split; [lia|done].
Qed.

Lemma stored_ok_Tick dt (w : World) : stored_ok w -> 0 <= dt -> stored_ok (Tick dt w).
Proof.
  intros Hs Hdt k p Hk. destruct (Hs k p Hk) as (Hp & Ha & Hi).
  split; [done|]. split; [unfold deref in *; cbn; lia|done].
Qed.

Lemma Inv_Tick d (w : World) : 0 <= d -> Inv w -> Inv (Tick d w).
Proof.
  intros Hd HI. pose proof HI as (Hs & Hlo & _).
  apply (Inv_frame w); try done; try (cbn; lia).
  intros k p Hk. destruct (Hs k p Hk) as (Hp & Ha & _).
  split; [done|]. split; [done|]. unfold deref in *. cbn. lia.
Qed.

Lemma Inv_Add k ls d dt (w : World) :
  Inv w -> int64 ls -> 0 <= dt -> Inv (fst (Add k ls d dt w)).
Proof.
  intros (Hs & Hl & T1 & T2 & T3) Hls Hdt. rewrite Add_unfold. cbn [fst].
  pose proof (stored_ok_inserted k ls d w Hs Hls) as Hs'.
  destruct (moreImminent ls (cleanupInterval (table w))) eqn:Hm.
  - apply Inv_expirationCheck; [by apply stored_ok_Tick|done].
  - apply Inv_Tick; [done|]. split; [done|]. split; [done|].
    assert (Hcase : ls <= 0 \/ (0 < cleanupInterval (table w) /\ cleanupInterval (table w) <= ls)).
    { unfold moreImminent in Hm. lia. }
    assert (Hitem : forall k' p, items (table (inserted k ls d w)) !! k' = Some p ->
       (p = next (heap w) /\ deref (inserted k ls d w) p = newItem k ls d (clock w)) \/
       (items (table w) !! k' = Some p /\ deref (inserted k ls d w) p = deref w p)).
    { intros k' p Hk'. cbn [inserted table items set_items] in Hk'.
      apply lookup_insert_Some in Hk' as [[<- <-]|[Hne Hk']].
      - left. split; [done|apply inserted_new].
      - right. split; [done|]. apply inserted_old. by destruct (Hs k' p Hk'). }
    unfold timer_ok. cbn [inserted table cleanupInterval cleanupTimer set_items clock].
    split; [done|]. split.
    + intros Hpos. destruct (T2 Hpos) as (tm & Htm & Hpend & Hdl & Hall).
      exists tm. split; [done|]. split; [done|]. split; [done|].
      intros k' p Hk' Hlp. destruct (Hitem k' p Hk') as [[-> Hd]|[Hk Hd]]; rewrite Hd in Hlp |- *.
      * cbn in Hlp |- *. lia.
      * by apply (Hall k').
    + intros Hz. destruct (T3 Hz) as [Hnp Hnone]. split; [done|].
      intros k' p Hk'. destruct (Hitem k' p Hk') as [[-> Hd]|[Hk Hd]]; rewrite Hd.
      * cbn. lia.
      * by apply (Hnone k').
Qed.

(** Writing to an item through a pointer keeps the invariant when the write
    keeps the lifespan and does not make a stored item look older. *)
Lemma Inv_store (w : World) p (it : CacheItem) :
  Inv w ->
  lifeSpan it = lifeSpan (deref w p) ->
  (forall k, items (table w) !! k = Some p ->
     accessedOn (deref w p) <= accessedOn it <= clock w) ->
  Inv (with_heap (store p it) w).
Proof.
  intros HI Hls Hacc. pose proof HI as (Hs & Hl & _).
  apply (Inv_frame w); try done; try (cbn; lia).
  intros k q Hk. cbn in Hk. destruct (Hs k q Hk) as (Hq & Ha & _).
  split; [done|]. unfold deref, with_heap, store. cbn -[Nat.eqb].
  destruct (Nat.eqb_spec q p) as [->|Hne].
  - split; [done|]. by apply (Hacc k).
  - split; [done|]. unfold deref in Ha. lia.
Qed.

Lemma Inv_KeepAlive (w : World) p : Inv w -> Inv (KeepAlive p w).
Proof.
  intros HI. unfold KeepAlive. apply Inv_store; [done|done|].
  intros k Hk. destruct HI as (Hs & _). destruct (Hs k p Hk) as (_ & Ha & _). cbn. lia.
Qed.

Lemma Inv_set_aboutToExpire (w : World) p l :
  Inv w -> Inv (with_heap (store p (set_aboutToExpire l (deref w p))) w).
Proof.
  intros HI. apply Inv_store; [done|done|].
  intros k Hk. destruct HI as (Hs & _). destruct (Hs k p Hk) as (_ & Ha & _). cbn. lia.
Qed.

(** Changes to the table that touch neither the items, the scheduler nor
    the loader. *)
Lemma Inv_with_table (w : World) (f : CacheTable -> CacheTable) :
  Inv w ->
  items (f (table w)) = items (table w) ->
  cleanupTimer (f (table w)) = cleanupTimer (table w) ->
  cleanupInterval (f (table w)) = cleanupInterval (table w) ->
  loadData (f (table w)) = loadData (table w) ->
  Inv (with_table f w).
Proof.
  intros HI Hi Ht Hc Hl. pose proof HI as (Hs & Hlo & _).
  apply (Inv_frame w); try done; try (cbn; lia).
  - cbn. by rewrite Hi.
  - intros g. cbn. rewrite Hl. apply Hlo.
  - intros k p. cbn. rewrite Hi. intros Hk. destruct (Hs k p Hk) as (Hp & Ha & _).
    split; [done|]. split; [done|]. unfold deref in *. cbn. lia.
Qed.

Lemma Inv_Delete k (w : World) : Inv w -> Inv (fst (Delete k w)).
Proof.
  intros HI. pose proof HI as (Hs & Hlo & _).
  destruct (items (table w) !! k) as [r|] eqn:Hk.
  - rewrite (Delete_present k w r Hk). cbn [fst].
    apply (Inv_frame w); try done; try (cbn; lia).
    + intros k' p. cbn. rewrite lookup_delete_Some. tauto.
    + intros k' p. cbn. rewrite lookup_delete_Some. intros [_ Hk'].
      destruct (Hs k' p Hk') as (Hp & Ha & _). split; [done|]. split; [done|].
      unfold deref in *. cbn. lia.
  - by rewrite (Delete_absent k w Hk).
Qed.

Lemma Inv_Flush (w : World) : Inv w -> Inv (Flush w).
Proof.
  intros (Hs & Hlo & _). split; [|split].
  - intros k p. cbn. by rewrite lookup_empty.
  - done.
  - split; [cbn; lia|]. split; [cbn; lia|]. intros _. split.
    + intros tm. cbn. destruct (cleanupTimer (table w)); cbn; [|done]. by intros [= <-].
    + intros k p. cbn. by rewrite lookup_empty.
Qed.

Lemma Inv_timerFires (w : World) : Inv w -> Inv (timerFires w).
Proof.
  intros HI. pose proof HI as (Hs & Hlo & _). unfold timerFires.
  destruct (cleanupTimer (table w)) as [tm|]; [|done].
  destruct (pending tm && (deadline tm <=? clock w)); [|done].
  apply Inv_expirationCheck; done.
Qed.

(** The loader runs: the heap may grow, the items that existed stay. *)
Lemma Inv_loaded (w : World) f k args :
  Inv w -> loader_ok f ->
  Inv (with_heap (fun _ => fst (f k args (clock w) (heap w))) w).
Proof.
  intros HI Hf. pose proof HI as (Hs & Hlo & _).
  destruct (Hf k args (clock w) (heap w)) as (Hnext & Hcell & _).
  apply (Inv_frame w); try done; try (cbn; lia).
  intros k' p Hk'. destruct (Hs k' p Hk') as (Hp & Ha & _).
  destruct (Hcell p Hp) as (Hls & Hmono & Hnow).
  unfold deref in *. cbn. split; [lia|]. split; [done|]. split; [done|by apply Hnow].
Qed.

Lemma Inv_Value k args dt (w : World) : Inv w -> 0 <= dt -> Inv (fst (Value k args dt w)).
Proof.
  intros HI Hdt. pose proof HI as (Hs & Hlo & _). unfold Value.
  destruct (items (table w) !! k) as [r|]; [by apply Inv_KeepAlive|].
  destruct (loadData (table w)) as [f|] eqn:Hf; [|done].
  pose proof (Inv_loaded w f k args HI (Hlo f Hf)) as HI2.
  destruct (Hlo f Hf k args (clock w) (heap w)) as (_ & _ & Hret).
  destruct (f k args (clock w) (heap w)) as [h [item|]]; cbn [fst snd] in *; [|done].
  apply Inv_Add; [done| |done]. by apply Hret.
Qed.

Lemma Inv_NotFoundAdd k ls d dt (w : World) :
  Inv w -> int64 ls -> 0 <= dt -> Inv (fst (NotFoundAdd k ls d dt w)).
Proof.
  intros HI Hls Hdt.
  destruct (items (table w) !! k) as [r|] eqn:Hk.
  - unfold NotFoundAdd. by rewrite Hk.
  - rewrite (NotFoundAdd_absent k ls d dt w Hk). by apply Inv_Add.
Qed.

(** Every operation keeps the invariant. *)
Lemma Inv_step op (w : World) : Inv w -> op_ok op -> Inv (step op w).
Proof.
  intros HI Hop. pose proof HI as (Hs & Hlo & Ht).
  destruct op; cbn [step op_ok] in *.
  - destruct Hop. by apply Inv_Add.
  - destruct Hop. by apply Inv_NotFoundAdd.
  - by apply Inv_Delete.
  - by apply Inv_Value.
  - by apply Inv_Flush.
  - apply (Inv_frame w); try done; try (cbn; lia).
    + intros g [= <-]. done.
    + intros k p Hk. destruct (Hs k p Hk) as (Hp & Ha & _).
      unfold deref in *. cbn in *. split; [done|]. split; [done|lia].
  - unfold SetAddedItemCallback.
    destruct (0 <? length (addedItem (table w)))%nat; by apply Inv_with_table.
  - by apply Inv_with_table.
  - by apply Inv_with_table.
  - unfold SetAboutToDeleteItemCallback.
    destruct (0 <? length (aboutToDeleteItem (table w)))%nat; by apply Inv_with_table.
  - by apply Inv_with_table.
  - by apply Inv_with_table.
  - by apply Inv_timerFires.
  - by apply Inv_Tick.
  - by apply Inv_KeepAlive.
  - by apply Inv_set_aboutToExpire.
  - by apply Inv_set_aboutToExpire.
Qed.

Lemma Inv_run ops : forall w : World, Inv w -> Forall op_ok ops -> Inv (run ops w).
Proof.
  induction ops as [|op ops IH]; intros w HI Hops; [done|].
  apply Forall_cons in Hops as [Hop Hops]. cbn. apply IH; [|done]. by apply Inv_step.
Qed.

Lemma Inv_newTable nm h c tr : Inv (mkWorld h (newTable nm) c tr).
Proof.
  split; [|split].
  - intros k p. cbn. by rewrite lookup_empty.
  - intros f. cbn. discriminate.
  - split; [cbn; lia|]. split; [cbn; lia|]. intros _. split.
    + intros tm. cbn. discriminate.
    + intros k p. cbn. by rewrite lookup_empty.
Qed.

(** ** Items that never expire (claim C4) *)







(** ** The armed interval (claim C5) *)


(** * More properties of the table *)

(** ** The callback queues *)

(** X1. [SetAddedItemCallback f] and [SetAboutToDeleteItemCallback f] leave
    [f] alone in the queue, whatever was registered before, and touch nothing
    else: each is the [Remove...] of the queue followed by the [Add...] of
    [f]. *)
Theorem SetCallback_replaces f (w : World) :
  addedItem (table (SetAddedItemCallback f w)) = [f] /\
  aboutToDeleteItem (table (SetAboutToDeleteItemCallback f w)) = [f] /\
  SetAddedItemCallback f w = AddAddedItemCallback f (RemoveAddedItemCallbacks w) /\
  SetAboutToDeleteItemCallback f w =
    AddAboutToDeleteItemCallback f (RemoveAboutToDeleteItemCallback w).
Proof.
  unfold SetAddedItemCallback, SetAboutToDeleteItemCallback.
  destruct w as [h [nm m tm iv ld added del] c tr]. cbn.
  destruct added as [|a added], del as [|b del]; cbn; done.
Qed.

(** ** What [Add] calls *)

Lemma expirationCheck_queues (w : World) :
  addedItem (table (expirationCheck w)) = addedItem (table w) /\
  aboutToDeleteItem (table (expirationCheck w)) = aboutToDeleteItem (table w).
Proof. by rewrite expirationCheck_unfold. Qed.

Lemma Add_queues k ls d dt (w : World) :
  addedItem (table (fst (Add k ls d dt w))) = addedItem (table w) /\
  aboutToDeleteItem (table (fst (Add k ls d dt w))) = aboutToDeleteItem (table w).
Proof.
  rewrite Add_unfold. cbn [fst].
  destruct (moreImminent _ _); [|done].
  destruct (expirationCheck_queues (Tick dt (inserted k ls d w))) as [-> ->]. done.
Qed.

(** The calls of the check inside [Add] are those of [deleteInternal] for
    entries that have expired: the entry of the new item, if it expired at
    once, and entries that were stored before. *)
Lemma checkEvents_elem k ls d dt (w : World) e :
  int64 ls -> 0 <= dt ->
  e ∈ checkEvents k ls d dt w ->
  (expiresAtOnce ls dt (cleanupInterval (table w)) = true /\
   e ∈ deleteEvents (inserted k ls d w) k (next (heap w))) \/
  (exists k' q, k' <> k /\ items (table w) !! k' = Some q /\
     e ∈ deleteEvents (inserted k ls d w) k' q).
Proof.
  intros Hls Hdt. unfold checkEvents, expiresAtOnce.
  destruct (moreImminent ls (cleanupInterval (table w))) eqn:Hm.
  2: { intros He. by apply elem_of_nil in He. }
  intros He. apply list_elem_of_In, in_flat_map in He as ([k' q] & Hin & He).
  apply filter_In in Hin as [Hin Hexp]. apply list_elem_of_In in Hin, He.
  apply range_map_elem in Hin. cbn [inserted table items set_items] in Hin.
  cbn [fst snd] in *.
  apply lookup_insert_Some in Hin as [[<- <-]|[Hne Hin]].
  - left. split; [|done]. rewrite inserted_new, newItem_expired in Hexp; [done..|].
    unfold moreImminent in Hm. lia.
  - right. exists k', q. done.
Qed.

(** The new item has no callback of its own: if the check deletes it, only
    the table's about-to-delete callbacks are called. *)
Lemma deleteEvents_new k ls d (w : World) :
  deleteEvents (inserted k ls d w) k (next (heap w)) =
  map (fun f => CallAboutToDeleteItem f (next (heap w)) true) (aboutToDeleteItem (table w)).
Proof. unfold deleteEvents. rewrite inserted_new. cbn. apply app_nil_r. Qed.

(** X2. [Add] calls every added-item callback once on the new item, in queue
    order, before anything else, and each of them finds the item in the map.
    What follows, if anything, are the calls of the expiration check, which
    are deletion callbacks.  Unless the new item expired at once, none of
    them is about the new item or its key; if it did, the table's
    about-to-delete callbacks are called on it.  There is no further call
    when the new item does not call for a check (lifespan not positive, or a
    timer armed for no more than its lifespan). *)
Theorem Add_callbacks k ls d dt (w : World) :
  int64 ls -> 0 <= dt ->
  (forall k' q, items (table w) !! k' = Some q -> (q < next (heap w))%nat) ->
  let p := snd (Add k ls d dt w) in
  trace (fst (Add k ls d dt w)) =
    trace w ++ map (fun f => CallAddedItem f p true) (addedItem (table w))
            ++ checkEvents k ls d dt w /\
  (forall e, e ∈ checkEvents k ls d dt w -> forall f q b, e <> CallAddedItem f q b) /\
  (expiresAtOnce ls dt (cleanupInterval (table w)) = false ->
   forall e, e ∈ checkEvents k ls d dt w ->
     (forall f b, e <> CallAboutToDeleteItem f p b) /\
     (forall f b, e <> CallAboutToExpire f k b)) /\
  (expiresAtOnce ls dt (cleanupInterval (table w)) = true ->
   forall f, f ∈ aboutToDeleteItem (table w) ->
     CallAboutToDeleteItem f p true ∈ checkEvents k ls d dt w) /\
  (ls <= 0 \/ (0 < cleanupInterval (table w) <= ls) -> checkEvents k ls d dt w = []).
Proof.
  intros Hls Hdt Hex p.
  destruct (Add_spec k ls d dt w) as (Hp & _). subst p. rewrite Hp.
  split; [apply Add_trace|]. split; [|split; [|split]].
  - intros e He f q b. apply (checkEvents_elem _ _ _ _ _ _ Hls Hdt) in He.
    assert (Hdel : forall k' q', e ∈ deleteEvents (inserted k ls d w) k' q' ->
                     e <> CallAddedItem f q b).
    { intros k' q' Hin. unfold deleteEvents in Hin. apply elem_of_app in Hin as [Hin|Hin];
        apply list_elem_of_fmap in Hin as (g & -> & _); discriminate. }
    destruct He as [[_ He]|(k' & q' & _ & _ & He)]; by apply (Hdel _ _ He).
  - intros Hkept e He. apply (checkEvents_elem _ _ _ _ _ _ Hls Hdt) in He.
    destruct He as [[Hc _]|(k' & q & Hne & Hq & He)]; [congruence|].
    specialize (Hex k' q Hq).
    unfold deleteEvents in He. apply elem_of_app in He as [He|He];
      apply list_elem_of_fmap in He as (g & -> & _); split; intros ? ?; try discriminate.
    + intros [= _ ?]. lia.
    + intros [= _ ?]. done.
  - intros Hdies f Hf. unfold checkEvents, expiresAtOnce in *.
    destruct (moreImminent ls (cleanupInterval (table w))) eqn:Hm; [|done].
    apply list_elem_of_In, in_flat_map. exists (k, next (heap w)). split.
    + apply filter_In. split.
      * apply list_elem_of_In, range_map_elem. cbn. apply lookup_insert_eq.
      * cbn [snd]. rewrite inserted_new, newItem_expired; [done..|].
        unfold moreImminent in Hm. lia.
    + cbn [fst snd]. rewrite deleteEvents_new. apply list_elem_of_In.
      apply list_elem_of_fmap. by exists f.
  - intros Hc. unfold checkEvents.
    replace (moreImminent ls (cleanupInterval (table w))) with false; [done|].
    unfold moreImminent. lia.
Qed.

(** X3. [Add] on a key that already holds an item replaces the item in
    silence: the old item is stored nowhere any more but is untouched (a
    client may still hold the pointer), and among the calls [Add] makes there
    is no about-to-delete callback on it and no about-to-expire callback for
    the key.  The key then holds the new item, or nothing if the new item
    expired at once. *)
Theorem Add_replaces_silently k ls d dt (w : World) r :
  items (table w) !! k = Some r ->
  (r < next (heap w))%nat ->
  (forall k', items (table w) !! k' = Some r -> k' = k) ->
  int64 ls -> 0 <= dt ->
  items (table (fst (Add k ls d dt w))) !! k =
    (if expiresAtOnce ls dt (cleanupInterval (table w)) then None
     else Some (snd (Add k ls d dt w))) /\
  snd (Add k ls d dt w) <> r /\
  (forall k', items (table (fst (Add k ls d dt w))) !! k' <> Some r) /\
  deref (fst (Add k ls d dt w)) r = deref w r /\
  (exists evs, trace (fst (Add k ls d dt w)) = trace w ++ evs /\
     forall e, e ∈ evs ->
       (forall f b, e <> CallAboutToDeleteItem f r b) /\
       (forall f b, e <> CallAboutToExpire f k b)).
Proof.
  intros Hr Hlt Honly Hls Hdt.
  destruct (Add_spec k ls d dt w) as (Hp & _ & Hold & _).
  rewrite Hp. split; [by apply Add_stored|]. split; [lia|]. split; [|split].
  - intros k' Hk'. apply Add_lookup in Hk'.
    apply lookup_insert_Some in Hk' as [[_ ?]|[Hne Hin]]; [lia|].
    apply Hne. symmetry. by apply Honly.
  - by apply Hold.
  - eexists. split; [apply Add_trace|]. intros e He. apply elem_of_app in He as [He|He].
    { apply list_elem_of_fmap in He as (g & -> & _). split; intros; discriminate. }
    apply (checkEvents_elem _ _ _ _ _ _ Hls Hdt) in He.
    destruct He as [[_ He]|(k' & q & Hne & Hq & He)].
    + rewrite deleteEvents_new in He. apply list_elem_of_fmap in He as (g & -> & _).
      split; intros ? ?; [|discriminate]. intros [= _ ?]. lia.
    + assert (q <> r) by (intros ->; by apply Hne, Honly).
      unfold deleteEvents in He. apply elem_of_app in He as [He|He];
        apply list_elem_of_fmap in He as (g & -> & _); split; intros; congruence.
Qed.

(** ** Presence and count *)

Lemma Exists_true k (w : World) : Exists k w = true <-> exists r, items (table w) !! k = Some r.
Proof. unfold Exists. rewrite bool_decide_eq_true. reflexivity. Qed.

Lemma Exists_false k (w : World) : Exists k w = false <-> items (table w) !! k = None.
Proof.
  unfold Exists. rewrite bool_decide_eq_false, <- eq_None_not_Some. reflexivity.
Qed.

(** X4. [Exists] tells whether [Delete] would succeed.  A key exists after it
    is added, unless the new item expired at once, and no longer after it is
    deleted or the table is flushed; deleting a key changes the presence of
    no other key; and adding a key never brings another key into the
    table. *)
Theorem Exists_round_trips k (w : World) :
  (Exists k w = false <-> snd (Delete k w) = Err ErrKeyNotFound) /\
  (forall ls d dt, int64 ls -> 0 <= dt ->
     Exists k (fst (Add k ls d dt w)) =
       negb (expiresAtOnce ls dt (cleanupInterval (table w)))) /\
  Exists k (fst (Delete k w)) = false /\
  (forall k', k' <> k -> Exists k' (fst (Delete k w)) = Exists k' w) /\
  Exists k (Flush w) = false /\
  (forall k' ls d dt, k' <> k ->
     Exists k (fst (Add k' ls d dt w)) = true -> Exists k w = true).
Proof.
  split; [|split; [|split; [|split; [|split]]]].
  - rewrite Exists_false. destruct (items (table w) !! k) as [r|] eqn:Hk.
    + rewrite (Delete_present k w r Hk). cbn. split; discriminate.
    + by rewrite (Delete_absent k w Hk).
  - intros ls d dt Hls Hdt. pose proof (Add_stored k ls d dt w Hls Hdt) as Hk.
    destruct (expiresAtOnce ls dt (cleanupInterval (table w))); cbn [negb].
    + by apply Exists_false.
    + apply Exists_true. eauto.
  - apply Exists_false. destruct (items (table w) !! k) as [r|] eqn:Hk.
    + rewrite (Delete_present k w r Hk). cbn. apply lookup_delete_eq.
    + by rewrite (Delete_absent k w Hk).
  - intros k' Hne. unfold Exists. destruct (items (table w) !! k) as [r|] eqn:Hk.
    + rewrite (Delete_present k w r Hk). cbn. by rewrite lookup_delete_ne.
    + by rewrite (Delete_absent k w Hk).
  - apply Exists_false. cbn. apply lookup_empty.
  - intros k' ls d dt Hne. rewrite !Exists_true. intros [r Hr]. exists r.
    apply Add_lookup in Hr. by rewrite lookup_insert_ne in Hr.
Qed.

(** X5. [Count] is never negative and is 0 exactly on the empty table.  A
    [Delete] that succeeds takes 1 off, one that fails changes nothing.  After
    [Add] the table holds at most one item more than before (the check it
    may trigger only deletes), and at least the new item unless that one
    expired at once; when the new item does not call for a check, the count
    goes up by 1 for a new key and stays for a key that was there. *)
Theorem Count_changes k (w : World) :
  0 <= Count w /\
  (Count w = 0 <-> items (table w) = ∅) /\
  (Exists k w = true -> Count (fst (Delete k w)) = Count w - 1) /\
  (Exists k w = false -> Count (fst (Delete k w)) = Count w) /\
  (forall ls d dt, Count (fst (Add k ls d dt w)) <= Count w + 1) /\
  (forall ls d dt, int64 ls -> 0 <= dt ->
     expiresAtOnce ls dt (cleanupInterval (table w)) = false ->
     1 <= Count (fst (Add k ls d dt w))) /\
  (forall ls d dt, moreImminent ls (cleanupInterval (table w)) = false ->
     Count (fst (Add k ls d dt w)) = if Exists k w then Count w else Count w + 1).
Proof.
  unfold Count. split; [lia|]. split; [|split; [|split; [|split; [|split]]]].
  - rewrite <- map_size_empty_iff. lia.
  - rewrite Exists_true. intros [r Hr]. rewrite (Delete_present k w r Hr). cbn.
    rewrite map_size_delete, Hr.
    assert (size (items (table w)) <> 0%nat).
    { apply map_size_ne_0_lookup. eauto. }
    cbn. lia.
  - rewrite Exists_false. intros Hk. by rewrite (Delete_absent k w Hk).
  - intros ls d dt.
    assert (Hle : (size (<[k := next (heap w)]> (items (table w))) <=
                   S (size (items (table w))))%nat).
    { rewrite map_size_insert. destruct (items (table w) !! k); cbn; lia. }
    assert (Hsub : items (table (fst (Add k ls d dt w))) ⊆
                   <[k := next (heap w)]> (items (table w))).
    { apply map_subseteq_spec. intros k' p. apply Add_lookup. }
    apply map_subseteq_size in Hsub. lia.
  - intros ls d dt Hls Hdt Hkept.
    assert (size (items (table (fst (Add k ls d dt w)))) <> 0%nat); [|lia].
    apply map_size_ne_0_lookup. exists k. rewrite (Add_kept k ls d dt w Hls Hdt Hkept). eauto.
  - intros ls d dt Hm. rewrite Add_unfold, Hm. cbn. rewrite map_size_insert.
    unfold Exists. destruct (items (table w) !! k) eqn:Hk.
    + rewrite bool_decide_eq_true_2 by eauto. cbn. lia.
    + rewrite bool_decide_eq_false_2 by (intros [? ?]; discriminate). cbn. lia.
Qed.

(** ** Operations in a row *)

(** Callbacks registered on an item: the table, the clock, the trace and the
    other items stay; the item's queue grows at its end. *)
Lemma registerAll_spec p cbs : forall w : World,
  table (registerAll p cbs w) = table w /\
  clock (registerAll p cbs w) = clock w /\
  trace (registerAll p cbs w) = trace w /\
  next (heap (registerAll p cbs w)) = next (heap w) /\
  (forall q, q <> p -> deref (registerAll p cbs w) q = deref w q) /\
  deref (registerAll p cbs w) p =
    set_aboutToExpire (aboutToExpire (deref w p) ++ cbs) (deref w p).
Proof.
  induction cbs as [|f cbs IH]; intros w; cbn [registerAll fold_left].
  - repeat (split; [done|]). rewrite app_nil_r. by destruct (deref w p).
  - fold (registerAll p cbs (AddAboutToExpireCallback p f w)).
    destruct (IH (AddAboutToExpireCallback p f w)) as (I1 & I2 & I3 & I4 & I5 & I6).
    rewrite I1, I2, I3, I4, I6. repeat (split; [done|]). split.
    + intros q Hq. rewrite (I5 q Hq).
      unfold AddAboutToExpireCallback, deref, with_heap, store. cbn -[Nat.eqb].
      destruct (Nat.eqb_spec q p); [done|reflexivity].
    + unfold AddAboutToExpireCallback, deref, with_heap, store, set_aboutToExpire.
      cbn -[Nat.eqb]. rewrite Nat.eqb_refl. cbn. by rewrite <- app_assoc.
Qed.

Lemma registerAll_run p cbs : forall w : World,
  run (map (OpAddAboutToExpireCallback p) cbs) w = registerAll p cbs w.
Proof. induction cbs as [|f cbs IH]; intros w; [done|]. cbn. apply IH. Qed.

(** X6. [Add], callbacks registered on the new item, then [Delete] of the
    key: unless the item expired at once, [Delete] gives back the item [Add]
    made and calls the table's about-to-delete callbacks on it, then the
    callbacks registered on the item, each seeing the item still stored; the
    key is gone, and a second [Delete] fails with [ErrKeyNotFound] and changes
    nothing: the callbacks are not called again. *)
Theorem Add_then_Delete k ls d dt cbs (w : World) :
  int64 ls -> 0 <= dt ->
  expiresAtOnce ls dt (cleanupInterval (table w)) = false ->
  let p := snd (Add k ls d dt w) in
  let w1 := registerAll p cbs (fst (Add k ls d dt w)) in
  let w2 := fst (Delete k w1) in
  snd (Delete k w1) = Ok p /\
  trace w2 =
    trace w1 ++ map (fun f => CallAboutToDeleteItem f p true) (aboutToDeleteItem (table w))
             ++ map (fun f => CallAboutToExpire f k true) cbs /\
  Exists k w2 = false /\
  Delete k w2 = (w2, Err ErrKeyNotFound).
Proof.
  intros Hls Hdt Hkept p w1 w2.
  destruct (Add_spec k ls d dt w) as (Hp & Hnew & _).
  pose proof (Add_kept k ls d dt w Hls Hdt Hkept) as Hk.
  destruct (Add_queues k ls d dt w) as [_ Hq].
  destruct (registerAll_spec p cbs (fst (Add k ls d dt w))) as (R1 & _ & _ & _ & _ & R6).
  fold w1 in R1, R6.
  assert (Hk1 : items (table w1) !! k = Some p) by (rewrite R1; subst p; by rewrite Hp).
  assert (Hev : deleteEvents w1 k p =
            map (fun f => CallAboutToDeleteItem f p true) (aboutToDeleteItem (table w))
            ++ map (fun f => CallAboutToExpire f k true) cbs).
  { unfold deleteEvents. rewrite R1, Hq, R6. subst p. rewrite Hp, Hnew. reflexivity. }
  subst w2. rewrite (Delete_present k w1 p Hk1). cbn [fst snd trace].
  split; [done|]. split; [by rewrite Hev|].
  assert (Hgone : items (table (mkWorld (heap w1)
            (set_items (delete k (items (table w1))) (table w1)) (clock w1)
            (trace w1 ++ deleteEvents w1 k p))) !! k = None).
  { cbn. apply lookup_delete_eq. }
  split; [by apply Exists_false|]. by apply Delete_absent.
Qed.

(** X7. [NotFoundAdd] adds at most once while the item is there: called
    again on the same key it returns [false] and changes nothing, whether the
    key was there before the first call or the first call added an item that
    outlived it.  When the first call added an item that expired at once,
    or once the key is deleted, it returns [true] again. *)
Theorem NotFoundAdd_once k ls d dt ls' d' dt' (w : World) :
  int64 ls -> 0 <= dt ->
  let w1 := fst (NotFoundAdd k ls d dt w) in
  (Exists k w = true \/ expiresAtOnce ls dt (cleanupInterval (table w)) = false ->
     NotFoundAdd k ls' d' dt' w1 = (w1, false)) /\
  (Exists k w = false -> expiresAtOnce ls dt (cleanupInterval (table w)) = true ->
     snd (NotFoundAdd k ls' d' dt' w1) = true) /\
  snd (NotFoundAdd k ls' d' dt' (fst (Delete k w1))) = true.
Proof.
  intros Hls Hdt w1. split; [|split].
  - intros Hcase.
    assert (Hk1 : exists r, items (table w1) !! k = Some r).
    { subst w1. destruct (items (table w) !! k) as [r|] eqn:Hk.
      - unfold NotFoundAdd. rewrite Hk. cbn. eauto.
      - rewrite (NotFoundAdd_absent _ _ _ _ _ Hk). cbn [fst].
        destruct Hcase as [Hc|Hc].
        + apply Exists_true in Hc as [r Hr]. congruence.
        + rewrite (Add_kept k ls d dt w Hls Hdt Hc). eauto. }
    destruct Hk1 as [r Hr]. unfold NotFoundAdd. by rewrite Hr.
  - intros Habs Hdies. apply Exists_false in Habs.
    assert (Hk1 : items (table w1) !! k = None).
    { subst w1. rewrite (NotFoundAdd_absent _ _ _ _ _ Habs). cbn [fst].
      by rewrite (Add_stored k ls d dt w Hls Hdt), Hdies. }
    by rewrite (NotFoundAdd_absent _ _ _ _ _ Hk1).
  - rewrite NotFoundAdd_absent; [done|].
    destruct (items (table w1) !! k) as [r|] eqn:Hr.
    + rewrite (Delete_present k w1 r Hr). cbn. apply lookup_delete_eq.
    + by rewrite (Delete_absent k w1 Hr).
Qed.

(** ** Value: misses and loads *)

(** X8. A [Value] that fails leaves the table, the trace and the clock as
    they were: no item is stored and no callback is called.  With
    [ErrKeyNotFound] nothing changes at all; with
    [ErrKeyNotFoundOrLoadable] only the loader may have acted, on items. *)
Theorem Value_failure_changes_nothing k args dt (w : World) e :
  snd (Value k args dt w) = Err e ->
  table (fst (Value k args dt w)) = table w /\
  trace (fst (Value k args dt w)) = trace w /\
  clock (fst (Value k args dt w)) = clock w /\
  (e = ErrKeyNotFound -> fst (Value k args dt w) = w).
Proof.
  unfold Value. destruct (items (table w) !! k) as [r|]; [discriminate|].
  destruct (loadData (table w)) as [load|].
  - destruct (load k args (clock w) (heap w)) as [h [item|]]; cbn; [discriminate|].
    intros [= <-]. repeat split; discriminate.
  - cbn. intros [= <-]. done.
Qed.

(** X9. What the loader produced is cached: after a [Value] served by the
    loader whose new item did not expire at once, the next [Value] of the key
    is a hit.  It returns the item the table stored (not the loader's), whose
    data is that of the loader's item and whose access count becomes 1, and
    it does not run the loader: the only change is the [KeepAlive] of the
    stored item.  When the new item expired at once, the key is absent again
    and the next [Value] runs the loader again. *)
Theorem Value_loaded_then_hit k args args' dt dt' (w : World) load h item :
  items (table w) !! k = None ->
  loadData (table w) = Some load ->
  load k args (clock w) (heap w) = (h, Some item) ->
  int64 (lifeSpan (cell h item)) -> 0 <= dt ->
  let w1 := fst (Value k args dt w) in
  (expiresAtOnce (lifeSpan (cell h item)) dt (cleanupInterval (table w)) = false ->
     Value k args' dt' w1 = (KeepAlive (next h) w1, Ok (next h)) /\
     data (deref (fst (Value k args' dt' w1)) (next h)) = data (cell h item) /\
     accessCount (deref (fst (Value k args' dt' w1)) (next h)) = 1) /\
  (expiresAtOnce (lifeSpan (cell h item)) dt (cleanupInterval (table w)) = true ->
     items (table w1) !! k = None /\ loadData (table w1) = Some load).
Proof.
  intros Hk Hl Hload Hls Hdt w1.
  assert (Hw1 : w1 = fst (Add k (lifeSpan (cell h item)) (data (cell h item)) dt
                            (with_heap (fun _ => h) w))).
  { subst w1. by rewrite (Value_load _ _ _ _ _ _ _ Hk Hl Hload). }
  destruct (Add_spec k (lifeSpan (cell h item)) (data (cell h item)) dt
              (with_heap (fun _ => h) w)) as (_ & H2 & _ & _ & _ & H6).
  pose proof (Add_stored k (lifeSpan (cell h item)) (data (cell h item)) dt
                (with_heap (fun _ => h) w) Hls Hdt) as H1.
  rewrite <- Hw1 in H1, H2, H6. cbn [with_heap heap table] in H1, H2, H6.
  split.
  - intros Hkept. rewrite Hkept in H1.
    rewrite (Value_hit k args' dt' w1 (next h) H1). cbn [fst].
    rewrite KeepAlive_deref, H2. cbn. done.
  - intros Hdies. rewrite Hdies in H1. split; [done|]. by rewrite H6.
Qed.

(** ** A second sweep *)

Lemma world_ext (a b : World) :
  heap a = heap b -> table a = table b -> clock a = clock b -> trace a = trace b -> a = b.
Proof. destruct a, b. cbn. by intros -> -> -> ->. Qed.

Lemma filter_none {T} (f : T -> bool) (l : list T) :
  (forall x, x ∈ l -> f x = false) -> List.filter f l = [].
Proof.
  induction l as [|x l IH]; intros Hf; cbn; [done|].
  rewrite (Hf x) by (by left). apply IH. intros y Hy. apply Hf. by right.
Qed.

(** X10. A sweep right after a sweep, at the same instant, does nothing: it
    deletes no item, calls no callback and arms the timer for the same
    interval. *)
Theorem expirationCheck_idempotent (w : World) :
  items_ok w -> expirationCheck (expirationCheck w) = expirationCheck w.
Proof.
  intros Hok.
  destruct (expirationCheck_interval w Hok) as (I1 & I2 & I3 & I4 & I5).
  set (w1 := expirationCheck w) in *.
  assert (Hheap : heap w1 = heap w) by apply expirationCheck_heap.
  assert (Hclock : clock w1 = clock w) by apply expirationCheck_clock.
  assert (Hderef : forall p, deref w1 p = deref w p) by (intros p; unfold deref; by rewrite Hheap).
  assert (Hkept : forall k p, items (table w1) !! k = Some p ->
            items (table w) !! k = Some p /\ expired (clock w1) (deref w1 p) = false).
  { intros k p Hk. apply expirationCheck_lookup in Hk. by rewrite Hclock, Hderef. }
  pose proof (expirationCheck_unfold w1) as Hun. cbv zeta in Hun.
  set (s := fold_left (sweepPure (clock w1) w1) (range_map (items (table w1)))
              (items (table w1), [], 0)) in Hun.
  assert (Hitems : s.1.1 = items (table w1)).
  { apply map_eq. intros k. apply option_eq. intros p. unfold s.
    rewrite sweepPure_lookup. cbn [fst]. split; [tauto|]. intros Hk. split; [done|].
    intros (q & Hq & He). apply range_map_elem in Hq. apply Hkept in Hq as [_ Hq]. congruence. }
  assert (Hevs : s.1.2 = []).
  { unfold s. rewrite sweepPure_events; [|apply range_map_NoDup|].
    - cbn [fst snd]. rewrite filter_none; [done|].
      intros [k q] Hq. apply range_map_elem in Hq. by apply Hkept in Hq as [_ Hq].
    - intros k q Hq. by apply range_map_elem. }
  assert (Hsd : s.2 = cleanupInterval (table w1)).
  { pose proof (sweepPure_min (clock w1) w1 (range_map (items (table w1)))
                  (items (table w1), [], 0)) as Hmin.
    cbn [snd] in Hmin. fold s in Hmin.
    destruct Hmin as (M1 & _ & M3 & M4); [|lia|].
    { intros k q Hq. apply range_map_elem, Hkept in Hq as [Hq _].
      rewrite Hderef, Hclock. by apply (Hok k). }
    assert (Hlive : forall k q, items (table w1) !! k = Some q ->
              lifeSpan (deref w q) <> 0 <-> live (clock w1) (deref w1 q)).
    { intros k q Hq. apply Hkept in Hq as [_ Hq]. unfold live. rewrite Hderef in *. tauto. }
    destruct M4 as [M4|(k & q & Hq & Hl & M4)].
    - destruct I3 as [I3|(k & p & Hk & Hnz & I3)]; [lia|].
      apply (Hlive k p Hk) in Hnz.
      destruct (M3 k p); [by apply range_map_elem|done|lia].
    - apply range_map_elem in Hq. pose proof Hl as Hnz. apply (Hlive k q Hq) in Hnz.
      destruct (I2 k q Hq Hnz) as [Hpos Hle].
      rewrite Hderef, Hclock in M4.
      destruct I3 as [I3|(k' & p & Hk & Hnz' & I3)]; [lia|].
      apply (Hlive k' p Hk) in Hnz'.
      destruct (M3 k' p) as [_ Hle']; [by apply range_map_elem|done|].
      rewrite Hderef, Hclock in Hle'. lia. }
  rewrite Hun. apply world_ext; cbn [heap table clock trace]; try done.
  - rewrite Hitems, Hsd.
    assert (Htm : (if 0 <? cleanupInterval (table w1)
                   then Some (AfterFunc (clock w1) (cleanupInterval (table w1)))
                   else Stop <$> cleanupTimer (table w1)) = cleanupTimer (table w1)).
    { destruct (0 <? cleanupInterval (table w1)) eqn:Hpos.
      - rewrite I4 by lia. by rewrite Hclock.
      - rewrite I5 by lia. by destruct (cleanupTimer (table w)). }
    rewrite Htm. by destruct (table w1).
  - rewrite Hevs. apply app_nil_r.
Qed.

(** ** The ranking picks the most accessed items *)

Lemma omap_pairs (w : World) :
  omap (fun v => items (table w) !! Key v) (pairs w) = (range_map (items (table w))).*2.
Proof.
  unfold pairs.
  assert (Hall : forall l, (forall k q, (k, q) ∈ l -> items (table w) !! k = Some q) ->
    omap (fun v => items (table w) !! Key v)
      (map (fun kv => mkCacheItemPair (fst kv) (accessCount (deref w (snd kv)))) l) = l.*2).
  { induction l as [|[k q] l IH]; intros Hl; cbn; [done|].
    rewrite (Hl k q) by (by left). f_equal. apply IH. intros k' q' Hq'. apply Hl. by right. }
  apply Hall. intros k q. apply range_map_elem.
Qed.

Lemma length_omap_stored (w : World) (l : list CacheItemPair) :
  (forall v, v ∈ l -> v ∈ pairs w) ->
  length (omap (fun v => items (table w) !! Key v) l) = length l.
Proof.
  induction l as [|v l IH]; intros Hl; cbn; [done|].
  destruct (pairs_stored w v) as (p & -> & _); [apply Hl; by left|].
  cbn. f_equal. apply IH. intros v' Hv'. apply Hl. by right.
Qed.

(** X11. [MostAccessed n] returns exactly [min n Count] items (all of them
    when [n] is larger, none when [n <= 0]), and they are the most accessed
    ones: the stored items split into the returned ones and the rest, and no
    item of the rest has a larger access count than a returned one. *)
Theorem MostAccessed_top (n : Z) (w : World) :
  length (MostAccessed n w) = Nat.min (Z.to_nat n) (size (items (table w))) /\
  exists rest,
    MostAccessed n w ++ rest ≡ₚ (map_to_list (items (table w))).*2 /\
    forall p q, p ∈ MostAccessed n w -> q ∈ rest ->
      accessCount (deref w q) <= accessCount (deref w p).
Proof.
  rewrite MostAccessed_omap.
  set (f := fun v : CacheItemPair => items (table w) !! Key v).
  set (l := sort_Sort (pairs w)).
  assert (Hin : forall v, v ∈ l -> v ∈ pairs w).
  { intros v. unfold l. by rewrite (sort_Sort_perm (pairs w)). }
  assert (Hlen : length l = size (items (table w))).
  { unfold l. rewrite (sort_Sort_perm (pairs w)). unfold pairs.
    by rewrite length_map, (range_map_perm _), length_map_to_list. }
  split.
  - unfold f. rewrite length_omap_stored, length_take, Hlen; [done|].
    intros v Hv. apply Hin. by apply subseteq_take in Hv.
  - exists (omap f (drop (Z.to_nat n) l)). split.
    + rewrite <- omap_app, take_drop. unfold l.
      rewrite (sort_Sort_perm (pairs w)). unfold f. rewrite omap_pairs.
      by rewrite (range_map_perm _).
    + intros p q Hp Hq.
      apply list_elem_of_omap in Hp as (a & Ha & Hfa).
      apply list_elem_of_omap in Hq as (b & Hb & Hfb).
      assert (Hab : Less b a = false).
      { apply (StronglySorted_app_1_elem_of (fun a b => Less b a = false)
                 (take (Z.to_nat n) l) (drop (Z.to_nat n) l)); [|done..].
        rewrite take_drop. apply sort_Sort_sorted. }
      destruct (pairs_stored w a) as (pa & Hpa & Hca).
      { apply Hin. by apply subseteq_take in Ha. }
      destruct (pairs_stored w b) as (pb & Hpb & Hcb).
      { apply Hin. by apply subseteq_drop in Hb. }
      unfold f in Hfa, Hfb. rewrite Hpa in Hfa. rewrite Hpb in Hfb.
      injection Hfa as <-. injection Hfb as <-. unfold Less in Hab. lia.
Qed.

(** ** Timing *)

(** After an [Add] with a positive lifespan whose item did not expire at
    once, a timer is pending that fires before the lifespan is over. *)
Lemma Add_armed k ls d dt (w : World) :
  Inv w -> int64 ls -> 0 <= dt -> 0 < ls ->
  expiresAtOnce ls dt (cleanupInterval (table w)) = false ->
  0 < cleanupInterval (table (fst (Add k ls d dt w))) /\
  exists tm, cleanupTimer (table (fst (Add k ls d dt w))) = Some tm /\
    pending tm = true /\ deadline tm <= clock w + ls.
Proof.
  intros HI Hls Hdt Hpos Hkept.
  pose proof (Inv_Add k ls d dt w HI Hls Hdt) as (_ & _ & T1 & T2 & T3).
  destruct (Add_spec k ls d dt w) as (_ & Hnew & _).
  pose proof (Add_kept k ls d dt w Hls Hdt Hkept) as Hk.
  assert (Hiv : 0 < cleanupInterval (table (fst (Add k ls d dt w)))).
  { destruct (Z_lt_le_dec 0 (cleanupInterval (table (fst (Add k ls d dt w))))) as [|Hle];
      [done|].
    destruct (T3 ltac:(lia)) as [_ Hnone]. specialize (Hnone _ _ Hk).
    rewrite Hnew in Hnone. cbn in Hnone. lia. }
  split; [done|].
  destruct (T2 Hiv) as (tm & Htm & Hpend & _ & Hall). exists tm.
  split; [done|]. split; [done|].
  specialize (Hall _ _ Hk). rewrite Hnew in Hall. cbn in Hall. apply Hall. lia.
Qed.


Lemma flat_map_split {T U} (f : T -> list U) (l : list T) x :
  x ∈ l -> exists pre post, flat_map f l = pre ++ f x ++ post.
Proof.
  intros Hx. apply list_elem_of_split in Hx as (l1 & l2 & ->).
  exists (flat_map f l1), (flat_map f l2). by rewrite flat_map_app.
Qed.

(** X13. An item that is added with a positive lifespan, does not expire at
    once and is not accessed is gone once that much time has passed since its
    creation and the timer has fired; on the way the table's about-to-delete
    callbacks were called on it and then the callbacks the client had
    registered on it, in order, each finding the item still stored. *)
Theorem item_expires k ls d dt cbs wait (w : World) :
  Inv w -> int64 ls -> 0 <= dt -> 0 <= wait ->
  expiresAtOnce ls dt (cleanupInterval (table w)) = false ->
  0 < ls <= dt + wait ->
  let p := snd (Add k ls d dt w) in
  let w' := run ([OpAdd k ls d dt] ++ map (OpAddAboutToExpireCallback p) cbs
                 ++ [OpTick wait; OpTimerFires]) w in
  Exists k w' = false /\
  exists pre post,
    trace w' =
      trace (fst (Add k ls d dt w)) ++ pre
      ++ (map (fun f => CallAboutToDeleteItem f p true) (aboutToDeleteItem (table w))
          ++ map (fun f => CallAboutToExpire f k true) cbs)
      ++ post.
Proof.
  intros HI Hls Hdt Hwait Hkept Hlong p w'.
  destruct (Add_armed k ls d dt w HI Hls Hdt ltac:(lia) Hkept)
    as (_ & tm & Htm & Hpend & Hdl).
  destruct (Add_spec k ls d dt w) as (Hp & Hnew & _ & _ & Hclock & _).
  pose proof (Add_kept k ls d dt w Hls Hdt Hkept) as Hk.
  destruct (Add_queues k ls d dt w) as [_ Hq].
  set (w1 := fst (Add k ls d dt w)) in *.
  destruct (registerAll_spec p cbs w1) as (R1 & R2 & R3 & _ & _ & R6).
  set (w1' := registerAll p cbs w1) in *.
  set (w2 := with_table (set_cleanupTimer (Some (Stop tm))) (Tick wait w1')).
  assert (Hw' : w' = expirationCheck w2).
  { unfold w', run. rewrite !fold_left_app. cbn [fold_left step]. fold w1.
    fold (run (map (OpAddAboutToExpireCallback p) cbs) w1).
    rewrite registerAll_run. fold w1'. unfold timerFires.
    cbn [Tick table clock]. rewrite R1, Htm, Hpend, R2.
    replace (deadline tm <=? clock w1 + wait) with true by lia. done. }
  assert (Hk2 : items (table w2) !! k = Some p).
  { change (items (table w2)) with (items (table w1')). rewrite R1. subst p. by rewrite Hp. }
  assert (Hp2 : deref w2 p = set_aboutToExpire cbs (newItem k ls d (clock w))).
  { change (deref w2 p) with (deref w1' p). rewrite R6. subst p. by rewrite Hp, Hnew. }
  assert (Hexp : expired (clock w2) (deref w2 p) = true).
  { rewrite Hp2. change (clock w2) with (clock w1' + wait). rewrite R2, Hclock.
    apply expired_iff; cbn [set_aboutToExpire newItem accessedOn lifeSpan]; [lia|done|lia]. }
  rewrite Hw'. split.
  - apply Exists_false.
    destruct (items (table (expirationCheck w2)) !! k) as [q|] eqn:Hq'; [|done].
    apply expirationCheck_lookup in Hq' as [Hq' He].
    rewrite Hk2 in Hq'. injection Hq' as <-. congruence.
  - rewrite expirationCheck_trace.
    destruct (flat_map_split (fun kv => deleteEvents w2 (fst kv) (snd kv))
                (List.filter (fun kv => expired (clock w2) (deref w2 (snd kv)))
                             (range_map (items (table w2)))) (k, p))
      as (pre & post & Hsplit).
    { apply list_elem_of_In, filter_In. split; [|exact Hexp].
      apply list_elem_of_In, range_map_elem. exact Hk2. }
    exists pre, post. rewrite Hsplit. cbn [fst snd].
    change (trace w2) with (trace w1'). rewrite R3. do 2 f_equal.
    unfold deleteEvents. rewrite Hp2.
    change (aboutToDeleteItem (table w2)) with (aboutToDeleteItem (table w1')).
    by rewrite R1, Hq.
Qed.

(** X14. The lifespan counts from the last access.  A [Value] that finds the
    item renews it: no sweep within less than the lifespan after it deletes
    the item, however old the item was.  Without the access, a sweep deletes
    the item as soon as the lifespan has passed since the last one. *)
Theorem Value_renews_lifespan k args dt (w : World) r b :
  items (table w) !! k = Some r ->
  int64 (lifeSpan (deref w r)) -> 0 < lifeSpan (deref w r) -> 0 <= b ->
  (b < lifeSpan (deref w r) ->
     Exists k (expirationCheck (Tick b (fst (Value k args dt w)))) = true) /\
  (accessedOn (deref w r) <= clock w ->
   lifeSpan (deref w r) <= clock w + b - accessedOn (deref w r) ->
     Exists k (expirationCheck (Tick b w)) = false).
Proof.
  intros Hr Hls Hpos Hb. split.
  - intros Hlt. apply Exists_true. exists r. apply expirationCheck_lookup.
    unfold Value. rewrite Hr. cbn [fst]. split; [done|].
    change (deref (Tick b (KeepAlive r w)) r) with (deref (KeepAlive r w) r).
    rewrite KeepAlive_deref. unfold expired. cbn.
    apply andb_false_iff. right.
    unfold Sub, int64, maxDuration, minDuration in *. repeat case_match; lia.
  - intros Hacc Hold. apply Exists_false.
    destruct (items (table (expirationCheck (Tick b w))) !! k) as [q|] eqn:Hq; [|done].
    apply expirationCheck_lookup in Hq as [Hq He].
    change (items (table (Tick b w))) with (items (table w)) in Hq.
    rewrite Hr in Hq. injection Hq as <-.
    change (deref (Tick b w) r) with (deref w r) in He.
    assert (Ht : expired (clock (Tick b w)) (deref w r) = true).
    { apply expired_iff; cbn; [lia|done|lia]. }
    congruence.
Qed.

(** ** Foreach *)

Lemma Foreach_noteVisit (w : World) seen :
  Foreach noteVisit w seen = seen ++ range_map (items (table w)).
Proof.
  unfold Foreach. generalize (range_map (items (table w))). intros l. revert seen.
  induction l as [|[k q] l IH]; intros seen; cbn.
  - by rewrite app_nil_r.
  - rewrite IH. unfold noteVisit. by rewrite <- app_assoc.
Qed.

(** X15. [Foreach] calls the visitor once on every stored entry and on
    nothing else: the calls it makes are an enumeration of the entries without
    repetition, the visitor's result is what these calls make of its state in
    that order, and a visitor that counts its calls ends at [Count]. *)
Theorem Foreach_visits_once {T : Type} (trans : K -> loc -> T -> T) (w : World) (s : T) :
  Foreach noteVisit w [] ≡ₚ map_to_list (items (table w)) /\
  NoDup (Foreach noteVisit w []).*1 /\
  (forall k p, (k, p) ∈ Foreach noteVisit w [] <-> items (table w) !! k = Some p) /\
  Foreach trans w s =
    fold_left (fun s kv => trans (fst kv) (snd kv) s) (Foreach noteVisit w []) s /\
  Foreach (fun _ _ n => n + 1) w 0 = Count w.
Proof.
  rewrite Foreach_noteVisit. cbn [app].
  split; [apply range_map_perm|]. split; [apply range_map_NoDup|].
  split; [intros k p; apply range_map_elem|]. split; [done|].
  unfold Foreach, Count.
  rewrite <- length_map_to_list, <- (range_map_perm (items (table w))).
  generalize (range_map (items (table w))). intros l.
  assert (Hgen : forall n, fold_left (fun s (_ : K * loc) => s + 1) l n
                           = n + Z.of_nat (length l)).
  { induction l as [|x l IH]; intros n; cbn [fold_left length]; [lia|]. rewrite IH. lia. }
  apply Hgen.
Qed.

(** ** The pair list as [sort.Interface] *)

Lemma swap_index_inj (i j : nat) :
  Inj (=) (=) (fun n => if decide (n = i) then j else if decide (n = j) then i else n).
Proof. intros a b. repeat case_decide; congruence. Qed.

(** X16. [CacheItemPairList] is a lawful [sort.Interface].  [Swap] is
    defined exactly on indices below [Len]; it exchanges the two elements and
    no other, keeps the length and the elements (the result is a permutation)
    and undoes itself.  [Less] orders by decreasing access count: it is
    irreflexive and transitive, and so is being unordered by it. *)
Theorem pair_list_sort_interface (p : list CacheItemPair) (i j : nat) :
  (is_Some (Swap p i j) <-> Z.of_nat i < Len p /\ Z.of_nat j < Len p) /\
  (forall p', Swap p i j = Some p' ->
     p' !! i = p !! j /\ p' !! j = p !! i /\
     (forall n, n <> i -> n <> j -> p' !! n = p !! n) /\
     Len p' = Len p /\ p' ≡ₚ p /\
     Swap p' i j = Some p /\
     LessAt p' i j = LessAt p j i) /\
  (forall a b c : CacheItemPair,
     Less a a = false /\
     (Less a b = true -> Less b c = true -> Less a c = true) /\
     (Less a b = false -> Less b c = false -> Less a c = false) /\
     (Less a b = true <-> AccessCount b < AccessCount a)).
Proof.
  split; [|split].
  - unfold Swap, Len. split.
    + destruct (p !! i) as [a|] eqn:Hi; [|by intros [? ?]].
      destruct (p !! j) as [b|] eqn:Hj; [|by intros [? ?]].
      apply lookup_lt_Some in Hi, Hj. lia.
    + intros [Hi Hj].
      destruct (lookup_lt_is_Some_2 p i) as [a ->]; [lia|].
      destruct (lookup_lt_is_Some_2 p j) as [b ->]; [lia|]. eauto.
  - intros p' Hswap. unfold Swap in Hswap.
    destruct (p !! i) as [a|] eqn:Hi; [|done].
    destruct (p !! j) as [b|] eqn:Hj; [|done].
    injection Hswap as <-.
    pose proof (lookup_lt_Some _ _ _ Hi) as Hli.
    pose proof (lookup_lt_Some _ _ _ Hj) as Hlj.
    assert (Hlook : forall n, <[j:=a]> (<[i:=b]> p) !! n =
              p !! (if decide (n = i) then j else if decide (n = j) then i else n)).
    { intros n. destruct (decide (n = j)) as [->|Hnj].
      - rewrite list_lookup_insert_eq by (rewrite length_insert; lia).
        case_decide; [by subst|done].
      - rewrite list_lookup_insert_ne by done.
        destruct (decide (n = i)) as [->|Hni].
        + by rewrite list_lookup_insert_eq.
        + by rewrite list_lookup_insert_ne. }
    assert (H1 : <[j:=a]> (<[i:=b]> p) !! i = p !! j).
    { rewrite Hlook. by rewrite decide_True. }
    assert (H2 : <[j:=a]> (<[i:=b]> p) !! j = p !! i).
    { rewrite Hlook. case_decide; [by subst|]. by rewrite decide_True. }
    split; [congruence|]. split; [congruence|]. split.
    { intros n Hni Hnj. rewrite Hlook. by rewrite !decide_False. }
    split; [unfold Len; by rewrite !length_insert|]. split.
    { apply Permutation_inj. split; [by rewrite !length_insert|].
      eexists. split; [apply (swap_index_inj i j)|]. exact Hlook. }
    split.
    + unfold Swap. rewrite H1, H2, Hi, Hj. f_equal. apply list_eq. intros n.
      destruct (decide (n = j)) as [->|Hnj].
      * rewrite list_lookup_insert_eq by (rewrite !length_insert; lia). done.
      * rewrite list_lookup_insert_ne by done.
        destruct (decide (n = i)) as [->|Hni].
        -- rewrite list_lookup_insert_eq by (rewrite !length_insert; lia). done.
        -- rewrite list_lookup_insert_ne by done. rewrite Hlook.
           by rewrite !decide_False.
    + unfold LessAt. by rewrite H1, H2, Hi, Hj.
  - intros a b c. unfold Less. lia.
Qed.

(** ** Items and their keys *)

Lemma keys_ok_frame (w w' : World) :
  keys_ok w ->
  (forall k p, items (table w') !! k = Some p ->
     items (table w) !! k = Some p /\ (p < next (heap w'))%nat /\
     key (deref w' p) = key (deref w p)) ->
  loadData (table w') = loadData (table w) ->
  keys_ok w'.
Proof.
  intros [Hk Hl] Hsub Hload. split.
  - intros k p Hp. destruct (Hsub k p Hp) as (Hp' & Hlt & Hkey).
    split; [done|]. rewrite Hkey. by apply Hk.
  - rewrite Hload. exact Hl.
Qed.

Lemma keys_ok_expirationCheck (w : World) : keys_ok w -> keys_ok (expirationCheck w).
Proof.
  intros HK. apply (keys_ok_frame w); [done| |apply expirationCheck_loadData].
  intros k p Hp. apply expirationCheck_lookup in Hp as [Hp _].
  unfold deref. rewrite expirationCheck_heap. destruct HK as [Hk _].
  destruct (Hk k p Hp). done.
Qed.

Lemma keys_ok_Add k ls d dt (w : World) : keys_ok w -> keys_ok (fst (Add k ls d dt w)).
Proof.
  intros HK. rewrite Add_unfold. cbn [fst].
  assert (Hins : keys_ok (Tick dt (inserted k ls d w))).
  { destruct HK as [Hk Hl]. split; [|exact Hl].
    intros k' p Hp. cbn [Tick inserted table items set_items] in Hp.
    change (deref (Tick dt (inserted k ls d w)) p) with (deref (inserted k ls d w) p).
    apply lookup_insert_Some in Hp as [[<- <-]|[Hne Hp]].
    - rewrite inserted_new. cbn. split; [lia|done].
    - destruct (Hk k' p Hp) as [Hlt Hkey]. rewrite inserted_old by done.
      cbn. split; [lia|done]. }
  destruct (moreImminent _ _); [by apply keys_ok_expirationCheck|done].
Qed.

Lemma keys_ok_store (w : World) q (it : CacheItem) :
  keys_ok w -> key it = key (deref w q) -> keys_ok (with_heap (store q it) w).
Proof.
  intros HK Hit. apply (keys_ok_frame w); [done| |done].
  intros k p Hp. destruct HK as [Hk _]. destruct (Hk k p Hp) as [Hlt _].
  split; [done|]. split; [done|].
  unfold deref, with_heap, store in *. cbn -[Nat.eqb].
  destruct (Nat.eqb_spec p q) as [->|]; done.
Qed.

Lemma keys_ok_with_table (w : World) (f : CacheTable -> CacheTable) :
  keys_ok w ->
  items (f (table w)) = items (table w) ->
  loadData (f (table w)) = loadData (table w) ->
  keys_ok (with_table f w).
Proof.
  intros HK Hi Hl. apply (keys_ok_frame w); [done| |done].
  intros k p. cbn. rewrite Hi. intros Hp. destruct HK as [Hk _].
  destruct (Hk k p Hp). done.
Qed.

Lemma keys_ok_step op (w : World) : keys_ok w -> op_keeps_keys op -> keys_ok (step op w).
Proof.
  intros HK [Hop Hkeep]. pose proof HK as [Hk Hl].
  destruct op; cbn [step] in *.
  - by apply keys_ok_Add.
  - destruct (items (table w) !! k) as [r|] eqn:Hr.
    + unfold NotFoundAdd. by rewrite Hr.
    + rewrite (NotFoundAdd_absent k ls d dt w Hr). by apply keys_ok_Add.
  - destruct (items (table w) !! k) as [r|] eqn:Hr.
    + rewrite (Delete_present k w r Hr). cbn [fst].
      apply (keys_ok_frame w); [done| |done].
      intros k' p. cbn. rewrite lookup_delete_Some. intros [_ Hp].
      destruct (Hk k' p Hp). done.
    + by rewrite (Delete_absent k w Hr).
  - unfold Value. destruct (items (table w) !! k) as [r|].
    + cbn [fst]. unfold KeepAlive. by apply keys_ok_store.
    + destruct (loadData (table w)) as [f|] eqn:Hf; [|done].
      destruct (Hl f eq_refl) as [Hfok Hfkey].
      destruct (Hfok k args (clock w) (heap w)) as (Hnext & _ & _).
      assert (HK2 : keys_ok (with_heap (fun _ => fst (f k args (clock w) (heap w))) w)).
      { apply (keys_ok_frame w); [done| |done].
        intros k' p Hp. destruct (Hk k' p Hp) as [Hlt _].
        split; [done|]. split; [cbn; lia|]. unfold deref. cbn. by apply Hfkey. }
      destruct (f k args (clock w) (heap w)) as [h [item|]]; cbn [fst snd] in *; [|done].
      by apply keys_ok_Add.
  - split; [|done]. intros k p. cbn. by rewrite lookup_empty.
  - split; [exact Hk|]. intros g [= <-]. done.
  - unfold SetAddedItemCallback.
    destruct (0 <? length (addedItem (table w)))%nat; by apply keys_ok_with_table.
  - by apply keys_ok_with_table.
  - by apply keys_ok_with_table.
  - unfold SetAboutToDeleteItemCallback.
    destruct (0 <? length (aboutToDeleteItem (table w)))%nat; by apply keys_ok_with_table.
  - by apply keys_ok_with_table.
  - by apply keys_ok_with_table.
  - unfold timerFires. destruct (cleanupTimer (table w)) as [tm|]; [|done].
    destruct (pending tm && (deadline tm <=? clock w)); [|done].
    by apply keys_ok_expirationCheck.
  - apply (keys_ok_frame w); [done| |done]. intros k p Hp. destruct (Hk k p Hp). done.
  - unfold KeepAlive. by apply keys_ok_store.
  - unfold SetAboutToExpireCallback. by apply keys_ok_store.
  - unfold AddAboutToExpireCallback. by apply keys_ok_store.
Qed.

(** X17. In every state a fresh table reaches, each stored item exists and
    carries the key it is stored under, so that no item is stored under two
    keys and [Count] counts distinct items. *)
Theorem stored_under_own_key nm h c tr ops :
  Forall op_keeps_keys ops ->
  let w := run ops (mkWorld h (newTable nm) c tr) in
  (forall k p, items (table w) !! k = Some p ->
     (p < next (heap w))%nat /\ key (deref w p) = k) /\
  (forall k1 k2 p, items (table w) !! k1 = Some p -> items (table w) !! k2 = Some p ->
     k1 = k2) /\
  NoDup (map_to_list (items (table w))).*2.
Proof.
  intros Hops w.
  assert (HK : keys_ok w).
  { subst w. revert Hops.
    assert (H0 : keys_ok (mkWorld h (newTable nm) c tr)).
    { split; [intros k p; cbn; by rewrite lookup_empty|]. intros f. cbn. discriminate. }
    revert H0. generalize (mkWorld h (newTable nm) c tr).
    induction ops as [|op ops IH]; intros w0 H0 Hops; [done|].
    apply Forall_cons in Hops as [Hop Hops]. cbn. apply IH; [|done].
    by apply keys_ok_step. }
  destruct HK as [Hk _].
  assert (Hinj : forall k1 k2 p, items (table w) !! k1 = Some p ->
            items (table w) !! k2 = Some p -> k1 = k2).
  { intros k1 k2 p H1 H2. destruct (Hk k1 p H1) as [_ <-]. by destruct (Hk k2 p H2). }
  split; [exact Hk|]. split; [exact Hinj|].
  apply NoDup_fmap_2_strong; [|apply NoDup_map_to_list].
  intros [k1 p1] [k2 p2] H1 H2 Heq. cbn in Heq. subst p2.
  apply elem_of_map_to_list in H1, H2. f_equal. by apply (Hinj k1 k2 p1).
Qed.

(** ** What the timer removes *)


(** ** What the table does to the items *)

(** X19. The table writes to an item in one way only: the [KeepAlive] of a
    [Value] that finds it.  [Add], [NotFoundAdd], [Delete], [Flush], the
    sweep, the callback registrations, a [Value] of another key that finds
    its item or fails for want of a loader, and the passage of time leave
    every existing item exactly as it was, stored or not. *)
Theorem table_leaves_items_alone op (w : World) p :
  (p < next (heap w))%nat -> ~ mayWrite op w p ->
  deref (step op w) p = deref w p /\ (p < next (heap (step op w)))%nat.
Proof.
  intros Hp Hno.
  assert (Hsweep : forall w0 : World, deref (expirationCheck w0) p = deref w0 p /\
            next (heap (expirationCheck w0)) = next (heap w0)).
  { intros w0. unfold deref. by rewrite expirationCheck_heap. }
  assert (Hadd : forall k ls d dt, deref (fst (Add k ls d dt w)) p = deref w p /\
            (p < next (heap (fst (Add k ls d dt w))))%nat).
  { intros k ls d dt. destruct (Add_spec k ls d dt w) as (_ & _ & Hold & Hnext & _).
    rewrite Hnext. split; [by apply Hold|lia]. }
  assert (Hstore : forall q (it : CacheItem), q <> p ->
            deref (with_heap (store q it) w) p = deref w p).
  { intros q it Hq. unfold deref, with_heap, store. cbn -[Nat.eqb].
    destruct (Nat.eqb_spec p q); [congruence|done]. }
  destruct op; cbn [step mayWrite] in *.
  - apply Hadd.
  - destruct (items (table w) !! k) as [r|] eqn:Hr.
    + unfold NotFoundAdd. by rewrite Hr.
    + rewrite (NotFoundAdd_absent k ls d dt w Hr). apply Hadd.
  - destruct (items (table w) !! k) as [r|] eqn:Hr.
    + by rewrite (Delete_present k w r Hr).
    + by rewrite (Delete_absent k w Hr).
  - unfold Value. destruct (items (table w) !! k) as [r|] eqn:Hr.
    + cbn [fst]. unfold KeepAlive. split; [|done]. apply Hstore. intros ->. by apply Hno; left.
    + destruct (loadData (table w)) as [f|]; [|done].
      exfalso. apply Hno. right. done.
  - done.
  - done.
  - unfold SetAddedItemCallback. by destruct (0 <? length (addedItem (table w)))%nat.
  - done.
  - done.
  - unfold SetAboutToDeleteItemCallback.
    by destruct (0 <? length (aboutToDeleteItem (table w)))%nat.
  - done.
  - done.
  - unfold timerFires. destruct (cleanupTimer (table w)) as [tm|]; [|done].
    destruct (pending tm && (deadline tm <=? clock w)); [|done].
    destruct (Hsweep (with_table (set_cleanupTimer (Some (Stop tm))) w)) as [-> ->]. done.
  - done.
  - unfold KeepAlive. split; [|done]. by apply Hstore.
  - unfold SetAboutToExpireCallback. split; [|done]. by apply Hstore.
  - unfold AddAboutToExpireCallback. split; [|done]. by apply Hstore.
Qed.

End Cache.

(** * The table at work *)

(** A table keyed by strings holding strings, as in the example program,
    with the map visited in the order of [map_to_list] and the pairs sorted
    by merge sort. *)

Definition rangeOrder (m : gmap string loc) : list (string * loc) := map_to_list m.

Definition inOrder (a b : @CacheItemPair string) : Prop := Less b a = false.

#[local] Instance inOrder_dec : RelDecision inOrder.
Proof. intros a b. unfold inOrder. apply _. Defined.

Definition sortPairs : list (@CacheItemPair string) -> list CacheItemPair :=
  merge_sort inOrder.

Definition noItem : @CacheItem string string :=
  mkCacheItem ""%string ""%string 0 0 0 0 [].

(** The world before anything happened: no item exists, the table is new,
    the clock shows 0. *)
Definition world0 : @World string _ _ string unit :=
  mkWorld (mkHeap (fun _ => noItem) 0%nat) (newTable "myCache") 0 [].

(** A loader that makes, for any key, an item holding ["z"] that never
    expires. *)
Definition loadZ : @Loader string string unit :=
  fun k _ now h => let '(h', p) := alloc (newItem k 0 "z"%string now) h in (h', Some p).

(** A loader whose items live for one unit of time. *)
Definition loadShort : @Loader string string unit :=
  fun k _ now h => let '(h', p) := alloc (newItem k 1 "s"%string now) h in (h', Some p).

(** Three items: ["a"] lives 10, ["b"] lives 5, ["n"] has the lifespan -1;
    then 7 units of time pass. *)
Definition sweepOps : list (@Op string string unit) :=
  [OpAdd "a"%string 10 "x"%string 0; OpAdd "b"%string 5 "y"%string 0;
   OpAdd "n"%string (-1) "z"%string 0; OpTick 7].

Definition sweepWorld : World := run rangeOrder sweepOps world0.



(** A table with the loader [loadZ] and nothing else. *)
Definition loaderWorld : World := run rangeOrder [OpSetDataLoader loadZ] world0.

(** A table with the loader [loadShort] and nothing else. *)
Definition shortLoaderWorld : World := run rangeOrder [OpSetDataLoader loadShort] world0.


(** A table with callbacks: two on deletion, and two on the item ["a"]. *)
Definition callbackWorld : World :=
  run rangeOrder [OpSetAboutToDeleteItemCallback 1%nat; OpAddAboutToDeleteItemCallback 2%nat;
                  OpAdd "a"%string 0 "x"%string 0;
                  OpSetAboutToExpireCallback 0%nat 7%nat;
                  OpAddAboutToExpireCallback 0%nat 8%nat] world0.

Lemma rangeOrder_perm (m : gmap string loc) : rangeOrder m ≡ₚ map_to_list m.
Proof. reflexivity. Qed.

Lemma inOrder_le (a b : @CacheItemPair string) :
  inOrder a b <-> AccessCount b <= AccessCount a.
Proof. unfold inOrder, Less. lia. Qed.

#[local] Instance inOrder_trans : Transitive inOrder.
Proof. intros a b c. rewrite !inOrder_le. lia. Qed.

#[local] Instance inOrder_total : Total inOrder.
Proof. intros a b. rewrite !inOrder_le. lia. Qed.

Lemma sortPairs_perm p : sortPairs p ≡ₚ p.
Proof. apply merge_sort_Permutation. Qed.

Lemma sortPairs_sorted p :
  StronglySorted (fun a b : @CacheItemPair string => Less b a = false) (sortPairs p).
Proof. apply (StronglySorted_merge_sort inOrder). Qed.

Lemma sweepOps_ok : Forall op_ok sweepOps.
Proof. repeat constructor; unfold int64, minDuration, maxDuration; cbn; lia. Qed.


Lemma loadZ_ok : loader_ok loadZ.
Proof.
  intros k args now h. unfold loadZ, alloc. cbn -[Nat.eqb]. split; [lia|]. split.
  - intros p Hp. destruct (Nat.eqb_spec p (next h)); [lia|]. split; [done|]. split; [lia|done].
  - intros p [= <-]. rewrite Nat.eqb_refl. cbn.
    unfold int64, minDuration, maxDuration. lia.
Qed.

Lemma int64_small z : -100 <= z <= 100 -> int64 z.
Proof. unfold int64, minDuration, maxDuration. lia. Qed.

(** ** The scenarios of the specification *)

(** [Add("a", 0, "x")], [Value("a")]: the data is ["x"], the access count 1;
    [Delete("a")]: the about-to-delete callbacks are called once each, in
    order, then those of the item, all of them with ["a"] still stored;
    [Value("a")] then fails. *)
Example scenario_add_value_delete :
  let w1 := fst (Value rangeOrder "a"%string [] 0 callbackWorld) in
  let w2 := fst (Delete "a"%string w1) in
  snd (Value rangeOrder "a"%string [] 0 callbackWorld) = Ok 0%nat /\
  data (deref w1 0%nat) = "x"%string /\
  accessCount (deref w1 0%nat) = 1 /\
  snd (Delete "a"%string w1) = Ok 0%nat /\
  trace w2 = [CallAboutToDeleteItem 1%nat 0%nat true; CallAboutToDeleteItem 2%nat 0%nat true;
              CallAboutToExpire 7%nat "a"%string true;
              CallAboutToExpire 8%nat "a"%string true] /\
  snd (Value rangeOrder "a"%string [] 0 w2) = Err ErrKeyNotFound /\
  snd (Delete "a"%string w2) = Err ErrKeyNotFound.
Proof. vm_compute. repeat split; reflexivity. Qed.

(** [Add("b", 50, "y")], 100 units later the timer has fired: ["b"] is gone. *)
Example scenario_expiry :
  Exists "b"%string
    (run rangeOrder [OpAdd "b"%string 50 "y"%string 2; OpTick 100; OpTimerFires] world0)
  = false.
Proof. vm_compute. reflexivity. Qed.

(** With the loader, [Value("c")] on the empty table succeeds with the data
    ["z"], and ["c"] exists afterwards. *)
Example scenario_loader :
  snd (Value rangeOrder "c"%string [] 0 loaderWorld) = Ok 0%nat /\
  data (deref (fst (Value rangeOrder "c"%string [] 0 loaderWorld)) 0%nat) = "z"%string /\
  Exists "c"%string (fst (Value rangeOrder "c"%string [] 0 loaderWorld)) = true.
Proof. vm_compute. repeat split; reflexivity. Qed.

(** The sweep of [sweepWorld] at the instant 7 keeps ["a"] alone and arms
    the timer for the 3 units ["a"] has left. *)
Example scenario_sweep :
  map_to_list (items (table (expirationCheck rangeOrder sweepWorld))) = [("a"%string, 0%nat)] /\
  cleanupInterval (table (expirationCheck rangeOrder sweepWorld)) = 3 /\
  cleanupTimer (table (expirationCheck rangeOrder sweepWorld)) = Some (mkTimer 10 true).
Proof. vm_compute. repeat split; reflexivity. Qed.

(** The example program [callbacks]: two added-item callbacks (1, 2) and an
    about-to-delete callback (3) are registered; ["someKey"] is added, read
    and deleted; the added-item callbacks are removed; ["anotherKey"] is added
    for 3 seconds with an about-to-expire callback (4); the program sleeps 5
    seconds, during which the timer fires.  Each [Add] takes a microsecond.
    The callbacks are called in this order, each with its item in the
    table. *)
Example scenario_callbacks_program :
  trace (run rangeOrder
           [OpSetAddedItemCallback 1%nat; OpAddAddedItemCallback 2%nat;
            OpSetAboutToDeleteItemCallback 3%nat;
            OpAdd "someKey"%string 0 "This is a test!"%string 1000;
            OpValue "someKey"%string [] 0;
            OpDelete "someKey"%string;
            OpRemoveAddedItemCallbacks;
            OpAdd "anotherKey"%string 3000000000 "This is another test"%string 1000;
            OpSetAboutToExpireCallback 1%nat 4%nat;
            OpTick 3000000000; OpTimerFires; OpTick 2000000000] world0)
  = [CallAddedItem 1%nat 0%nat true; CallAddedItem 2%nat 0%nat true;
     CallAboutToDeleteItem 3%nat 0%nat true;
     CallAboutToDeleteItem 3%nat 1%nat true;
     CallAboutToExpire 4%nat "anotherKey"%string true].
Proof. vm_compute. reflexivity. Qed.

(** An item that lives for one unit of time is added to the empty table and
    the clock has moved by one unit when the expiration check the insertion
    triggers reads it: the check deletes the item, the about-to-delete
    callback is called on it right after the added-item callback, and [Add]
    leaves an empty table with no timer. *)
Example scenario_expires_at_once :
  let w := run rangeOrder [OpSetAddedItemCallback 1%nat; OpSetAboutToDeleteItemCallback 3%nat]
             world0 in
  let w' := fst (Add rangeOrder "a"%string 1 "x"%string 1 w) in
  Count w' = 0 /\
  trace w' = [CallAddedItem 1%nat 0%nat true; CallAboutToDeleteItem 3%nat 0%nat true] /\
  cleanupInterval (table w') = 0 /\
  cleanupTimer (table w') = None.
Proof. vm_compute. repeat split; reflexivity. Qed.

(** ** Where the code departs from the specification *)




(** C6, counterexample.  [Value("c")] served by the loader succeeds, and no
    access count goes up by 1: the item it returns (the loader's, at 0) has
    the count 0 it was created with, and so has the item stored under ["c"]
    (at 1).  A second [Value("c")] finds the stored item and counts 1 on it;
    the item returned first stays at 0. *)
Lemma loaded_Value_counts_nothing :
  let w1 := fst (Value rangeOrder "c"%string [] 0 loaderWorld) in
  let w2 := fst (Value rangeOrder "c"%string [] 0 w1) in
  items (table loaderWorld) !! "c"%string = None /\
  snd (Value rangeOrder "c"%string [] 0 loaderWorld) = Ok 0%nat /\
  accessCount (deref w1 0%nat) = 0 /\
  items (table w1) !! "c"%string = Some 1%nat /\
  accessCount (deref w1 1%nat) = 0 /\
  snd (Value rangeOrder "c"%string [] 0 w1) = Ok 1%nat /\
  accessCount (deref w2 1%nat) = 1 /\
  accessCount (deref w2 0%nat) = 0.
Proof. vm_compute. repeat split; reflexivity. Qed.

(** C7, counterexample.  On the empty table, [NotFoundAdd("a", 1, "x")]
    finds ["a"] absent, creates the item 0 at the instant 0 and inserts it.
    No timer is armed, so the insertion triggers the expiration check, which
    reads the clock at the instant 1: the lifespan has passed and the check
    deletes the item.  The call returns [true], and no item is stored under
    ["a"]: the table is empty. *)
Lemma NotFoundAdd_true_key_absent :
  let w' := fst (NotFoundAdd rangeOrder "a"%string 1 "x"%string 1 world0) in
  items (table world0) !! "a"%string = None /\
  snd (NotFoundAdd rangeOrder "a"%string 1 "x"%string 1 world0) = true /\
  items (table w') !! "a"%string = None /\
  Exists "a"%string w' = false /\
  Count w' = 0 /\
  lifeSpan (deref w' 0%nat) = 1 /\
  createdOn (deref w' 0%nat) = 0 /\
  clock w' = 1.
Proof. vm_compute. repeat split; reflexivity. Qed.

(** C10, counterexample.  The loader returns an item (the item 0) that
    lives for one unit of time.  [Value("c")] succeeds and returns it; the
    [Add] it runs creates the item 1 at the instant 0, inserts it and, no
    timer being armed, runs the expiration check, which reads the clock at
    the instant 1 and deletes the item 1.  When [Value] returns, the table
    stores nothing under ["c"]. *)
Lemma loaded_item_expires_at_once :
  let w' := fst (Value rangeOrder "c"%string [] 1 shortLoaderWorld) in
  items (table shortLoaderWorld) !! "c"%string = None /\
  snd (Value rangeOrder "c"%string [] 1 shortLoaderWorld) = Ok 0%nat /\
  lifeSpan (deref w' 0%nat) = 1 /\
  lifeSpan (deref w' 1%nat) = 1 /\
  createdOn (deref w' 1%nat) = 0 /\
  clock w' = 1 /\
  items (table w') !! "c"%string = None /\
  Count w' = 0.
Proof. vm_compute. repeat split; reflexivity. Qed.

(** ** The theorems at work on the concrete table *)

Lemma sweepWorld_ok : items_ok sweepWorld.
Proof.
  apply stored_ok_items_ok.
  apply (Inv_run rangeOrder rangeOrder_perm sweepOps world0 (Inv_newTable _ _ _ _) sweepOps_ok).
Qed.




Lemma Add_then_Value_witness :
  (forall m, rangeOrder m ≡ₚ map_to_list m) /\
  int64 10 /\ 0 <= 3 /\
  expiresAtOnce 10 3 (cleanupInterval (table world0)) = false /\
  snd (Value rangeOrder "a"%string [] 0 (fst (Add rangeOrder "a"%string 10 "x"%string 3 world0)))
    = Ok (snd (Add rangeOrder "a"%string 10 "x"%string 3 world0)) /\
  data (deref (fst (Value rangeOrder "a"%string [] 0
                      (fst (Add rangeOrder "a"%string 10 "x"%string 3 world0))))
              (snd (Add rangeOrder "a"%string 10 "x"%string 3 world0))) = "x"%string.
Proof.
  assert (H1 : int64 10) by (apply int64_small; lia).
  assert (H2 : 0 <= 3) by lia.
  assert (H3 : expiresAtOnce 10 3 (cleanupInterval (table world0)) = false) by reflexivity.
  split; [exact rangeOrder_perm|]. split; [exact H1|]. split; [exact H2|]. split; [exact H3|].
  exact (proj1 (Add_then_Value rangeOrder rangeOrder_perm "a"%string 10 "x"%string 3 [] 0
                  world0) H1 H2 H3).
Defined.

Lemma NotFoundAdd_spec_witness :
  (forall m, rangeOrder m ≡ₚ map_to_list m) /\
  items (table world0) !! "a"%string = None /\ int64 10 /\ 0 <= 3 /\
  snd (NotFoundAdd rangeOrder "a"%string 10 "x"%string 3 world0) = true /\
  items (table (fst (NotFoundAdd rangeOrder "a"%string 10 "x"%string 3 world0))) !! "a"%string
    = Some 0%nat.
Proof.
  assert (H0 : items (table world0) !! "a"%string = None) by reflexivity.
  assert (H1 : int64 10) by (apply int64_small; lia).
  assert (H2 : 0 <= 3) by lia.
  split; [exact rangeOrder_perm|]. split; [exact H0|]. split; [exact H1|]. split; [exact H2|].
  destruct (NotFoundAdd_spec rangeOrder rangeOrder_perm "a"%string 10 "x"%string 3 world0)
    as (Ha & Hb & _).
  split; [exact (proj2 Ha H0)|].
  exact (proj2 (proj2 (proj2 (Hb H0))) H1 H2).
Defined.

Lemma Flush_spec_witness :
  (forall m, rangeOrder m ≡ₚ map_to_list m) /\
  Count (Flush sweepWorld) = 0 /\
  trace (expirationCheck rangeOrder (Flush sweepWorld)) = trace sweepWorld.
Proof.
  split; [exact rangeOrder_perm|].
  destruct (Flush_spec rangeOrder rangeOrder_perm sweepWorld)
    as (_ & Hc & _ & _ & _ & _ & Ht & _).
  split; [exact Hc|exact Ht].
Defined.

Lemma MostAccessed_spec_witness :
  (forall m, rangeOrder m ≡ₚ map_to_list m) /\
  (forall p, sortPairs p ≡ₚ p) /\
  (forall p, StronglySorted (fun a b : @CacheItemPair string => Less b a = false)
               (sortPairs p)) /\
  Z.of_nat (length (MostAccessed rangeOrder sortPairs 2 sweepWorld)) <= Z.max 0 2.
Proof.
  split; [exact rangeOrder_perm|]. split; [exact sortPairs_perm|].
  split; [exact sortPairs_sorted|].
  exact (proj1 (MostAccessed_spec rangeOrder rangeOrder_perm sortPairs sortPairs_perm
                  sortPairs_sorted 2 sweepWorld)).
Defined.

Lemma Value_loaded_witness :
  items (table loaderWorld) !! "c"%string = None /\
  loadData (table loaderWorld) = Some loadZ /\
  loadZ "c"%string [] (clock loaderWorld) (heap loaderWorld) =
    (fst (loadZ "c"%string [] (clock loaderWorld) (heap loaderWorld)), Some 0%nat) /\
  (0 < next (fst (loadZ "c"%string [] (clock loaderWorld) (heap loaderWorld))))%nat /\
  int64 (lifeSpan (cell (fst (loadZ "c"%string [] (clock loaderWorld) (heap loaderWorld)))
                        0%nat)) /\
  0 <= 4 /\
  snd (Value rangeOrder "c"%string [] 4 loaderWorld) = Ok 0%nat /\
  items (table (fst (Value rangeOrder "c"%string [] 4 loaderWorld))) !! "c"%string
    = Some 1%nat.
Proof.
  assert (H1 : items (table loaderWorld) !! "c"%string = None) by reflexivity.
  assert (H2 : loadData (table loaderWorld) = Some loadZ) by reflexivity.
  assert (H3 : loadZ "c"%string [] (clock loaderWorld) (heap loaderWorld) =
    (fst (loadZ "c"%string [] (clock loaderWorld) (heap loaderWorld)), Some 0%nat))
    by reflexivity.
  assert (H4 : (0 < next (fst (loadZ "c"%string [] (clock loaderWorld)
                                  (heap loaderWorld))))%nat) by (cbn; lia).
  assert (H5 : int64 (lifeSpan (cell (fst (loadZ "c"%string [] (clock loaderWorld)
                                             (heap loaderWorld))) 0%nat)))
    by (apply int64_small; cbn; lia).
  assert (H6 : 0 <= 4) by lia.
  split; [exact H1|]. split; [exact H2|]. split; [exact H3|]. split; [exact H4|].
  split; [exact H5|]. split; [exact H6|].
  destruct (Value_loaded rangeOrder rangeOrder_perm "c"%string [] 4 loaderWorld loadZ
              _ 0%nat H1 H2 H3 H4) as (Ha & Hb & _).
  split; [exact Ha|exact (Hb H5 H6)].
Defined.

(** ** The further properties at work on the concrete table *)

(** A table with two added-item callbacks. *)
Definition addedWorld : World :=
  run rangeOrder [OpSetAddedItemCallback 1%nat; OpAddAddedItemCallback 2%nat] world0.

(** A table holding ["a"] with the lifespan 10. *)
Definition oneItemWorld : World := fst (Add rangeOrder "a"%string 10 "x"%string 0 world0).

Lemma Add_callbacks_witness :
  int64 10 /\ 0 <= 2 /\
  (forall k' q, items (table addedWorld) !! k' = Some q -> (q < next (heap addedWorld))%nat) /\
  trace (fst (Add rangeOrder "a"%string 10 "x"%string 2 addedWorld)) =
    trace addedWorld
    ++ map (fun f => CallAddedItem f (snd (Add rangeOrder "a"%string 10 "x"%string 2 addedWorld))
                       true)
           (addedItem (table addedWorld))
    ++ checkEvents rangeOrder "a"%string 10 "x"%string 2 addedWorld.
Proof.
  assert (H1 : int64 10) by (apply int64_small; lia).
  assert (H2 : 0 <= 2) by lia.
  assert (H3 : forall k' q, items (table addedWorld) !! k' = Some q ->
                 (q < next (heap addedWorld))%nat).
  { intros k' q. change (items (table addedWorld)) with (∅ : gmap string loc).
    by rewrite lookup_empty. }
  split; [exact H1|]. split; [exact H2|]. split; [exact H3|].
  exact (proj1 (Add_callbacks rangeOrder rangeOrder_perm
                  "a"%string 10 "x"%string 2 addedWorld H1 H2 H3)).
Defined.

Lemma Add_replaces_silently_witness :
  items (table oneItemWorld) !! "a"%string = Some 0%nat /\
  (0 < next (heap oneItemWorld))%nat /\
  (forall k', items (table oneItemWorld) !! k' = Some 0%nat -> k' = "a"%string) /\
  int64 5 /\ 0 <= 1 /\
  forall k', items (table (fst (Add rangeOrder "a"%string 5 "y"%string 1 oneItemWorld))) !! k'
             <> Some 0%nat.
Proof.
  assert (H1 : items (table oneItemWorld) !! "a"%string = Some 0%nat) by reflexivity.
  assert (H2 : (0 < next (heap oneItemWorld))%nat) by (vm_compute; lia).
  assert (H3 : forall k', items (table oneItemWorld) !! k' = Some 0%nat -> k' = "a"%string).
  { intros k'.
    change (items (table oneItemWorld)) with ({["a"%string := 0%nat]} : gmap string loc).
    intros Hk'. by apply lookup_singleton_Some in Hk' as [-> _]. }
  assert (H4 : int64 5) by (apply int64_small; lia).
  assert (H5 : 0 <= 1) by lia.
  split; [exact H1|]. split; [exact H2|]. split; [exact H3|].
  split; [exact H4|]. split; [exact H5|].
  exact (proj1 (proj2 (proj2 (Add_replaces_silently rangeOrder rangeOrder_perm
                  "a"%string 5 "y"%string 1 oneItemWorld 0%nat H1 H2 H3 H4 H5)))).
Defined.

Lemma Exists_round_trips_witness :
  (forall m, rangeOrder m ≡ₚ map_to_list m) /\
  Exists "a"%string (fst (Delete "a"%string oneItemWorld)) = false.
Proof.
  split; [exact rangeOrder_perm|].
  exact (proj1 (proj2 (proj2 (Exists_round_trips rangeOrder rangeOrder_perm
                                "a"%string oneItemWorld)))).
Defined.

Lemma Count_changes_witness :
  (forall m, rangeOrder m ≡ₚ map_to_list m) /\
  (Count sweepWorld = 0 <-> items (table sweepWorld) = ∅).
Proof.
  split; [exact rangeOrder_perm|].
  exact (proj1 (proj2 (Count_changes rangeOrder rangeOrder_perm "a"%string sweepWorld))).
Defined.

Lemma Add_then_Delete_witness :
  int64 5 /\ 0 <= 2 /\
  expiresAtOnce 5 2 (cleanupInterval (table oneItemWorld)) = false /\
  snd (Delete "b"%string
         (registerAll (snd (Add rangeOrder "b"%string 5 "y"%string 2 oneItemWorld)) [7%nat; 8%nat]
            (fst (Add rangeOrder "b"%string 5 "y"%string 2 oneItemWorld))))
    = Ok (snd (Add rangeOrder "b"%string 5 "y"%string 2 oneItemWorld)).
Proof.
  assert (H1 : int64 5) by (apply int64_small; lia).
  assert (H2 : 0 <= 2) by lia.
  assert (H3 : expiresAtOnce 5 2 (cleanupInterval (table oneItemWorld)) = false)
    by reflexivity.
  split; [exact H1|]. split; [exact H2|]. split; [exact H3|].
  exact (proj1 (Add_then_Delete rangeOrder rangeOrder_perm "b"%string 5 "y"%string 2
                  [7%nat; 8%nat] oneItemWorld H1 H2 H3)).
Defined.

Lemma NotFoundAdd_once_witness :
  int64 1 /\ 0 <= 1 /\
  Exists "a"%string world0 = false /\
  expiresAtOnce 1 1 (cleanupInterval (table world0)) = true /\
  snd (NotFoundAdd rangeOrder "a"%string 3 "y"%string 0
         (fst (NotFoundAdd rangeOrder "a"%string 1 "x"%string 1 world0))) = true.
Proof.
  assert (H1 : int64 1) by (apply int64_small; lia).
  assert (H2 : 0 <= 1) by lia.
  assert (H3 : Exists "a"%string world0 = false) by reflexivity.
  assert (H4 : expiresAtOnce 1 1 (cleanupInterval (table world0)) = true) by reflexivity.
  split; [exact H1|]. split; [exact H2|]. split; [exact H3|]. split; [exact H4|].
  exact (proj1 (proj2 (NotFoundAdd_once rangeOrder rangeOrder_perm
                         "a"%string 1 "x"%string 1 3 "y"%string 0 world0 H1 H2)) H3 H4).
Defined.

Lemma Value_failure_changes_nothing_witness :
  snd (Value rangeOrder "c"%string [] 0 oneItemWorld) = Err ErrKeyNotFound /\
  table (fst (Value rangeOrder "c"%string [] 0 oneItemWorld)) = table oneItemWorld.
Proof.
  assert (H1 : snd (Value rangeOrder "c"%string [] 0 oneItemWorld) = Err ErrKeyNotFound)
    by reflexivity.
  split; [exact H1|].
  exact (proj1 (Value_failure_changes_nothing rangeOrder "c"%string [] 0 oneItemWorld _ H1)).
Defined.

Lemma Value_loaded_then_hit_witness :
  items (table loaderWorld) !! "c"%string = None /\
  loadData (table loaderWorld) = Some loadZ /\
  loadZ "c"%string [] (clock loaderWorld) (heap loaderWorld) =
    (fst (loadZ "c"%string [] (clock loaderWorld) (heap loaderWorld)), Some 0%nat) /\
  int64 (lifeSpan (cell (fst (loadZ "c"%string [] (clock loaderWorld) (heap loaderWorld)))
                        0%nat)) /\
  0 <= 4 /\
  expiresAtOnce
    (lifeSpan (cell (fst (loadZ "c"%string [] (clock loaderWorld) (heap loaderWorld))) 0%nat))
    4 (cleanupInterval (table loaderWorld)) = false /\
  accessCount
    (deref (fst (Value rangeOrder "c"%string [] 0
                   (fst (Value rangeOrder "c"%string [] 4 loaderWorld))))
       (next (fst (loadZ "c"%string [] (clock loaderWorld) (heap loaderWorld))))) = 1.
Proof.
  assert (H1 : items (table loaderWorld) !! "c"%string = None) by reflexivity.
  assert (H2 : loadData (table loaderWorld) = Some loadZ) by reflexivity.
  assert (H3 : loadZ "c"%string [] (clock loaderWorld) (heap loaderWorld) =
    (fst (loadZ "c"%string [] (clock loaderWorld) (heap loaderWorld)), Some 0%nat))
    by reflexivity.
  assert (H4 : int64 (lifeSpan (cell (fst (loadZ "c"%string [] (clock loaderWorld)
                                             (heap loaderWorld))) 0%nat)))
    by (apply int64_small; cbn; lia).
  assert (H5 : 0 <= 4) by lia.
  assert (H6 : expiresAtOnce
    (lifeSpan (cell (fst (loadZ "c"%string [] (clock loaderWorld) (heap loaderWorld))) 0%nat))
    4 (cleanupInterval (table loaderWorld)) = false) by reflexivity.
  split; [exact H1|]. split; [exact H2|]. split; [exact H3|]. split; [exact H4|].
  split; [exact H5|]. split; [exact H6|].
  exact (proj2 (proj2 (proj1 (Value_loaded_then_hit rangeOrder rangeOrder_perm "c"%string [] []
                         4 0 loaderWorld loadZ _ 0%nat H1 H2 H3 H4 H5) H6))).
Defined.

Lemma expirationCheck_idempotent_witness :
  items_ok sweepWorld /\
  expirationCheck rangeOrder (expirationCheck rangeOrder sweepWorld) =
  expirationCheck rangeOrder sweepWorld.
Proof.
  split; [exact sweepWorld_ok|].
  exact (expirationCheck_idempotent rangeOrder rangeOrder_perm sweepWorld sweepWorld_ok).
Defined.

Lemma MostAccessed_top_witness :
  (forall m, rangeOrder m ≡ₚ map_to_list m) /\
  (forall p, sortPairs p ≡ₚ p) /\
  (forall p, StronglySorted (fun a b : @CacheItemPair string => Less b a = false)
               (sortPairs p)) /\
  length (MostAccessed rangeOrder sortPairs 2 sweepWorld) =
    Nat.min (Z.to_nat 2) (size (items (table sweepWorld))).
Proof.
  split; [exact rangeOrder_perm|]. split; [exact sortPairs_perm|].
  split; [exact sortPairs_sorted|].
  exact (proj1 (MostAccessed_top rangeOrder rangeOrder_perm sortPairs sortPairs_perm
                  sortPairs_sorted 2 sweepWorld)).
Defined.


Lemma item_expires_witness :
  Inv world0 /\ int64 50 /\ 0 <= 2 /\ 0 <= 100 /\
  expiresAtOnce 50 2 (cleanupInterval (table world0)) = false /\
  0 < 50 <= 2 + 100 /\
  Exists "b"%string
    (run rangeOrder
       ([OpAdd "b"%string 50 "y"%string 2]
        ++ map (OpAddAboutToExpireCallback
                  (snd (Add rangeOrder "b"%string 50 "y"%string 2 world0))) [7%nat; 8%nat]
        ++ [OpTick 100; OpTimerFires]) world0)
  = false.
Proof.
  assert (H1 : Inv world0) by apply Inv_newTable.
  assert (H2 : int64 50) by (apply int64_small; lia).
  assert (H3 : 0 <= 2) by lia.
  assert (H4 : 0 <= 100) by lia.
  assert (H5 : expiresAtOnce 50 2 (cleanupInterval (table world0)) = false) by reflexivity.
  assert (H6 : 0 < 50 <= 2 + 100) by lia.
  split; [exact H1|]. split; [exact H2|]. split; [exact H3|]. split; [exact H4|].
  split; [exact H5|]. split; [exact H6|].
  exact (proj1 (item_expires rangeOrder rangeOrder_perm "b"%string 50 "y"%string 2
                  [7%nat; 8%nat] 100 world0 H1 H2 H3 H4 H5 H6)).
Defined.

Lemma Value_renews_lifespan_witness :
  items (table (Tick 9 oneItemWorld)) !! "a"%string = Some 0%nat /\
  int64 (lifeSpan (deref (Tick 9 oneItemWorld) 0%nat)) /\
  0 < lifeSpan (deref (Tick 9 oneItemWorld) 0%nat) /\ 0 <= 9 /\
  9 < lifeSpan (deref (Tick 9 oneItemWorld) 0%nat) /\
  Exists "a"%string
    (expirationCheck rangeOrder
       (Tick 9 (fst (Value rangeOrder "a"%string [] 0 (Tick 9 oneItemWorld))))) = true.
Proof.
  assert (H1 : items (table (Tick 9 oneItemWorld)) !! "a"%string = Some 0%nat) by reflexivity.
  assert (H2 : int64 (lifeSpan (deref (Tick 9 oneItemWorld) 0%nat)))
    by (apply int64_small; vm_compute; split; discriminate).
  assert (H3 : 0 < lifeSpan (deref (Tick 9 oneItemWorld) 0%nat)) by reflexivity.
  assert (H4 : 0 <= 9) by lia.
  assert (H5 : 9 < lifeSpan (deref (Tick 9 oneItemWorld) 0%nat)) by reflexivity.
  split; [exact H1|]. split; [exact H2|]. split; [exact H3|]. split; [exact H4|].
  split; [exact H5|].
  exact (proj1 (Value_renews_lifespan rangeOrder rangeOrder_perm "a"%string [] 0
                  (Tick 9 oneItemWorld) 0%nat 9 H1 H2 H3 H4) H5).
Defined.

Lemma Foreach_visits_once_witness :
  (forall m, rangeOrder m ≡ₚ map_to_list m) /\
  Foreach rangeOrder (fun _ _ n => n + 1) sweepWorld 0 = Count sweepWorld.
Proof.
  split; [exact rangeOrder_perm|].
  exact (proj2 (proj2 (proj2 (proj2 (Foreach_visits_once rangeOrder rangeOrder_perm
                  (fun _ _ n => n + 1) sweepWorld 0))))).
Defined.

Lemma sweepOps_keep_keys : Forall op_keeps_keys sweepOps.
Proof.
  repeat constructor; unfold int64, minDuration, maxDuration; cbn; lia.
Qed.

Lemma stored_under_own_key_witness :
  Forall op_keeps_keys sweepOps /\
  NoDup (map_to_list (items (table (run rangeOrder sweepOps world0)))).*2.
Proof.
  split; [exact sweepOps_keep_keys|].
  exact (proj2 (proj2 (stored_under_own_key rangeOrder rangeOrder_perm "myCache"
                  (mkHeap (fun _ => noItem) 0%nat) 0 [] sweepOps sweepOps_keep_keys))).
Defined.


Lemma table_leaves_items_alone_witness :
  (0 < next (heap oneItemWorld))%nat /\
  ~ mayWrite (OpAdd "b"%string 5 "y"%string 1) oneItemWorld 0%nat /\
  deref (step rangeOrder (OpAdd "b"%string 5 "y"%string 1) oneItemWorld) 0%nat
    = deref oneItemWorld 0%nat.
Proof.
  assert (H1 : (0 < next (heap oneItemWorld))%nat) by (vm_compute; lia).
  assert (H2 : ~ mayWrite (OpAdd "b"%string 5 "y"%string 1) oneItemWorld 0%nat)
    by (intros []).
  split; [exact H1|]. split; [exact H2|].
  exact (proj1 (table_leaves_items_alone rangeOrder
                  (OpAdd "b"%string 5 "y"%string 1) oneItemWorld 0%nat H1 H2)).
Defined.
